(** * katana: the Manager of [katana/manager.py]

    A shallow embedding of the evaluation manager: flag search
    ([find_flag]), result registration ([register_data],
    [register_artifact], [register_flag]), target queueing
    ([queue_target], [queue], [requeue]), the driver loop ([join]) and the
    worker loop ([_thread]).

    Python objects are modelled by values: byte strings are lists of
    [Byte.byte], text is a list of code points, the Manager is a record
    threaded through an exception monad, and the [completed] attribute of
    the root targets is a finite set of target identities. *)

From Stdlib Require Import ZArith NArith List Bool Lia String Ascii.
From Stdlib.Strings Require Import Byte.
From stdpp Require Import base gmap.
Import ListNotations.

Set Default Proof Using "Type".

(* ===================================================================== *)
(** ** Byte strings and text *)
(* ===================================================================== *)

Definition bytes : Type := list byte.

(** A Python [str]: a sequence of code points. *)
Definition text : Type := list N.

(** The literal [b"..."]. *)
Definition b (s : string) : bytes := list_byte_of_string s.

Fixpoint bytes_eqb (x y : bytes) : bool :=
  match x, y with
  | [], [] => true
  | c :: x', d :: y' => Byte.eqb c d && bytes_eqb x' y'
  | _, _ => false
  end.

Definition in_range (lo hi n : N) : bool := ((lo <=? n) && (n <=? hi))%N.

Definition byte_of_N (n : N) : byte :=
  match Byte.of_N n with Some c => c | None => x00 end.

(** [bytes.decode('utf-8')] with the default strict error handler:
    [None] stands for [UnicodeDecodeError]. Overlong forms, surrogates and
    code points above U+10FFFF are rejected, as CPython does. *)
Fixpoint utf8_decode (bs : bytes) : option text :=
  match bs with
  | [] => Some []
  | b0 :: r0 =>
    let n0 := Byte.to_N b0 in
    if (n0 <? 0x80)%N then
      option_map (cons n0) (utf8_decode r0)
    else if in_range 0xC2 0xDF n0 then
      match r0 with
      | b1 :: r1 =>
        let n1 := Byte.to_N b1 in
        if in_range 0x80 0xBF n1 then
          option_map (cons ((n0 - 0xC0) * 64 + (n1 - 0x80))%N) (utf8_decode r1)
        else None
      | _ => None
      end
    else if in_range 0xE0 0xEF n0 then
      match r0 with
      | b1 :: b2 :: r2 =>
        let n1 := Byte.to_N b1 in
        let n2 := Byte.to_N b2 in
        let lo := if (n0 =? 0xE0)%N then 0xA0%N else 0x80%N in
        let hi := if (n0 =? 0xED)%N then 0x9F%N else 0xBF%N in
        if in_range lo hi n1 && in_range 0x80 0xBF n2 then
          option_map
            (cons ((n0 - 0xE0) * 4096 + (n1 - 0x80) * 64 + (n2 - 0x80))%N)
            (utf8_decode r2)
        else None
      | _ => None
      end
    else if in_range 0xF0 0xF4 n0 then
      match r0 with
      | b1 :: b2 :: b3 :: r3 =>
        let n1 := Byte.to_N b1 in
        let n2 := Byte.to_N b2 in
        let n3 := Byte.to_N b3 in
        let lo := if (n0 =? 0xF0)%N then 0x90%N else 0x80%N in
        let hi := if (n0 =? 0xF4)%N then 0x8F%N else 0xBF%N in
        if in_range lo hi n1 && in_range 0x80 0xBF n2
           && in_range 0x80 0xBF n3 then
          option_map
            (cons ((n0 - 0xF0) * 262144 + (n1 - 0x80) * 4096
                   + (n2 - 0x80) * 64 + (n3 - 0x80))%N)
            (utf8_decode r3)
        else None
      | _ => None
      end
    else None
  end.

(** [str.encode('utf-8')] of one code point; [None] stands for
    [UnicodeEncodeError] (lone surrogates). *)
Definition utf8_encode_cp (c : N) : option bytes :=
  if (c <? 0x80)%N then Some [byte_of_N c]
  else if (c <? 0x800)%N then
    Some [byte_of_N (0xC0 + c / 64); byte_of_N (0x80 + c mod 64)]%N
  else if in_range 0xD800 0xDFFF c then None
  else if (c <? 0x10000)%N then
    Some [byte_of_N (0xE0 + c / 4096); byte_of_N (0x80 + (c / 64) mod 64);
          byte_of_N (0x80 + c mod 64)]%N
  else if (c <? 0x110000)%N then
    Some [byte_of_N (0xF0 + c / 262144); byte_of_N (0x80 + (c / 4096) mod 64);
          byte_of_N (0x80 + (c / 64) mod 64); byte_of_N (0x80 + c mod 64)]%N
  else None.

Fixpoint utf8_encode (s : text) : option bytes :=
  match s with
  | [] => Some []
  | c :: s' =>
    match utf8_encode_cp c, utf8_encode s' with
    | Some x, Some y => Some (x ++ y)
    | _, _ => None
    end
  end.

(** Modelled from the spec: [katana.util.isprintable] is not part of the
    sources at hand; the matched text is printable when every character is
    printable ASCII or common whitespace ([string.printable]). *)
Definition printable_char (c : N) : bool :=
  in_range 0x20 0x7E c || in_range 0x09 0x0D c.

Definition isprintable (s : text) : bool := forallb printable_char s.

(** The whitespace stripped by [bytes.strip()]. *)
Definition bytes_space (c : byte) : bool :=
  let n := Byte.to_N c in (n =? 0x20)%N || in_range 0x09 0x0D n.

(** The whitespace stripped by [str.strip()] ([str.isspace]). *)
Definition str_space (c : N) : bool :=
  in_range 0x09 0x0D c || in_range 0x1C 0x20 c || (c =? 0x85)%N
  || (c =? 0xA0)%N || (c =? 0x1680)%N || in_range 0x2000 0x200A c
  || (c =? 0x2028)%N || (c =? 0x2029)%N || (c =? 0x202F)%N
  || (c =? 0x205F)%N || (c =? 0x3000)%N.

Fixpoint lstrip {A} (sp : A -> bool) (l : list A) : list A :=
  match l with
  | [] => []
  | c :: l' => if sp c then lstrip sp l' else l
  end.

Definition strip {A} (sp : A -> bool) (l : list A) : list A :=
  rev (lstrip sp (rev (lstrip sp l))).

(* ===================================================================== *)
(** ** Regular expressions over bytes (the part of [re] that is used) *)
(* ===================================================================== *)

(** A backtracking matcher with Python's priorities: alternatives are
    tried left to right and repetition is greedy. *)
Inductive regex : Type :=
| Eps
| Chr (p : byte -> bool)
| Cat (r1 r2 : regex)
| Alt (r1 r2 : regex)
| Star (r : regex).

Definition Plus (r : regex) : regex := Cat r (Star r).

Fixpoint rmatch {A} (r : regex) (s : bytes) (k : bytes -> option A)
  {struct r} : option A :=
  match r with
  | Eps => k s
  | Chr p =>
    match s with
    | c :: s' => if p c then k s' else None
    | [] => None
    end
  | Cat r1 r2 => rmatch r1 s (fun s' => rmatch r2 s' k)
  | Alt r1 r2 =>
    match rmatch r1 s k with
    | Some x => Some x
    | None => rmatch r2 s k
    end
  | Star r1 =>
    (fix loop (n : nat) (s : bytes) {struct n} : option A :=
       match n with
       | O => k s
       | S n' =>
         match rmatch r1 s
                 (fun s' => if (length s' <? length s)%nat
                            then loop n' s' else None) with
         | Some x => Some x
         | None => k s
         end
       end) (length s) s
  end.

(** Length of the match of [r] anchored at the start of [s]. *)
Definition match_len (r : regex) (s : bytes) : option nat :=
  rmatch r s (fun s' => Some (length s - length s')%nat).

(** A match object: [match.start()] and [match.end()]. *)
Record Match : Type := { m_start : nat; m_end : nat }.

(** [match.group()]: the slice [data[start:end]]. *)
Definition group (m : Match) (data : bytes) : bytes :=
  firstn (m_end m - m_start m) (skipn (m_start m) data).

(** [pattern.search(data)]: the leftmost match. *)
Fixpoint re_search_from (r : regex) (pos : nat) (s : bytes) : option Match :=
  match match_len r s with
  | Some n => Some {| m_start := pos; m_end := pos + n |}
  | None =>
    match s with
    | [] => None
    | _ :: s' => re_search_from r (S pos) s'
    end
  end.

Definition re_search (r : regex) (data : bytes) : option Match :=
  re_search_from r 0 data.

(** [re.sub(r, b'', data)]: every leftmost non-overlapping match is
    deleted. [skip] counts the bytes of the current match still to drop. *)
Fixpoint re_delete_from (r : regex) (skip : nat) (s : bytes) : bytes :=
  match s with
  | [] => []
  | c :: s' =>
    match skip with
    | S k => re_delete_from r k s'
    | O =>
      match match_len r s with
      | Some (S k) => re_delete_from r k s'
      | _ => c :: re_delete_from r 0 s'
      end
    end
  end.

Definition re_delete (r : regex) (data : bytes) : bytes :=
  re_delete_from r 0 data.

Definition is_byte (c : string) (x : byte) : bool :=
  match b c with
  | [y] => Byte.eqb x y
  | _ => false
  end.

(** The pattern [b'<[^<]+>'] of the XML hack. *)
Definition xml_tag : regex :=
  Cat (Chr (is_byte "<"))
      (Cat (Plus (Chr (fun x => negb (is_byte "<" x)))) (Chr (is_byte ">"))).

Definition no_xml (data : bytes) : bytes := re_delete xml_tag data.

(** Literals under [re.IGNORECASE]. *)
Definition lower (x : byte) : N :=
  let n := Byte.to_N x in if in_range 0x41 0x5A n then (n + 0x20)%N else n.

Definition lit_i (x : byte) : regex :=
  Chr (fun y => (lower y =? lower x)%N).

Fixpoint lits_i (l : bytes) : regex :=
  match l with
  | [] => Eps
  | x :: l' => Cat (lit_i x) (lits_i l')
  end.

(** The flag format ["FLAG{[^}]+}"] compiled with [re.IGNORECASE]. *)
Definition flag_braces : regex :=
  Cat (lits_i (b "FLAG{"))
      (Cat (Plus (Chr (fun x => negb (is_byte "}" x)))) (Chr (is_byte "}"))).

(* ===================================================================== *)
(** ** Data model *)
(* ===================================================================== *)

(** The values handed to [find_flag] and [queue_target]: byte strings,
    text, and lists or tuples of them. *)
#[warnings="-register-all"]
Inductive Data : Type :=
| DBytes (bs : bytes)
| DStr (s : text)
| DList (items : list Data)
| DTuple (items : list Data).

Inductive Exn : Type :=
| UnicodeDecodeError
| UnicodeEncodeError
| AttributeError
| TypeError
| RuntimeError
| FileExistsError
| KeyboardInterruptExn
| UnitError (code : nat).

(** Identity of a Target object. *)
Definition target_id : Type := nat.

Definition Case : Type := Data.

(** One [next(generator)]. *)
Inductive GenStep : Type :=
| Yield (c : Case)
| StopIteration
| GenRaise (e : Exn).

(** A case generator: a single-pass iterator with its position. *)
Record Gen : Type := { gen_next : nat -> GenStep; gen_pos : nat }.

Definition gen_of_list (l : list GenStep) : Gen :=
  {| gen_next := fun i => nth i l StopIteration; gen_pos := 0 |}.

Inductive EnumResult : Type :=
| EnumGen (g : Gen)
| EnumRaise (e : Exn).

(** What the body of a unit's [evaluate] does with the manager: it
    registers results for itself, or raises. *)
Inductive Stmt : Type :=
| SData (data : Data) (recurse : bool)
| SArtifact (path : Data) (recurse : bool)
| SFlag (flag : text)
| SRaise (e : Exn).

(** Modelled from the spec: [katana.unit.Unit] is not part of the sources
    at hand. A unit carries its static [PRIORITY] and [STRICT_FLAGS], its
    target, the root target of its derivation tree ([origin]), its depth,
    and the two methods [enumerate] and [evaluate]. *)
Record Unit : Type := {
  PRIORITY : Z;
  STRICT_FLAGS : bool;
  target : target_id;
  origin : target_id;
  depth : Z;
  enumerate : EnumResult;
  evaluate : Case -> list Stmt
}.

(** Modelled from the spec: [katana.target.Target] is not part of the
    sources at hand. The [completed] attribute of a root target lives in
    the manager state (the set [completed] below). *)
Record Target : Type := {
  tid : target_id;
  upstream : Data;
  parent : option Unit;
  tdepth : Z;
  torigin : target_id
}.

Inductive Action : Type := init | evaluate_ | abort.

(** [Manager.WorkItem]. *)
Record WorkItem : Type := {
  priority : Z;
  action : Action;
  item_unit : option Unit;
  generator : option Gen
}.

(** Calls received by the Monitor. *)
Inductive Event : Type :=
| on_artifact (u : Unit) (path : Data)
| on_data (u : Unit) (data : Data)
| on_flag (u : Unit) (flag : text)
| on_exception (u : Unit) (e : Exn)
| on_depth_limit (t : target_id) (p : Unit)
| on_completion (did_timeout : bool).

(** [threading.Barrier]: its size and the number of [reset()] calls. *)
Record Barrier : Type := { parties : nat; resets : nat }.

(** A compiled pattern: its [search] method. *)
Definition Pattern : Type := bytes -> option Match.

(** [re.compile(r, re.DOTALL | re.MULTILINE | re.IGNORECASE)]; the flags
    are part of how the [regex] was built. *)
Definition re_compile (r : regex) : Pattern := re_search r.

(** The Manager: the configuration it reads, its collaborators and its
    own fields. [monitor] is the log of the calls the Monitor received,
    [targets] the Target objects built so far, [completed] the root targets
    whose [completed] attribute is true. *)
Record Manager : Type := {
  cfg_recurse : bool;
  cfg_max_depth : Z;
  cfg_threads : nat;
  cfg_flag_format : option regex;
  outdir_exists : bool;
  finder_match : Target -> list Unit;
  finder_validate : option Exn;
  work : list WorkItem;
  barrier : option Barrier;
  threads : nat;
  flag_pattern : option Pattern;
  monitor : list Event;
  targets : list Target;
  completed : gset target_id
}.

Definition set_work (w : list WorkItem) (m : Manager) : Manager :=
  {| cfg_recurse := cfg_recurse m; cfg_max_depth := cfg_max_depth m;
     cfg_threads := cfg_threads m; cfg_flag_format := cfg_flag_format m;
     outdir_exists := outdir_exists m; finder_match := finder_match m;
     finder_validate := finder_validate m; work := w; barrier := barrier m;
     threads := threads m; flag_pattern := flag_pattern m;
     monitor := monitor m; targets := targets m; completed := completed m |}.

Definition set_barrier (x : option Barrier) (m : Manager) : Manager :=
  {| cfg_recurse := cfg_recurse m; cfg_max_depth := cfg_max_depth m;
     cfg_threads := cfg_threads m; cfg_flag_format := cfg_flag_format m;
     outdir_exists := outdir_exists m; finder_match := finder_match m;
     finder_validate := finder_validate m; work := work m; barrier := x;
     threads := threads m; flag_pattern := flag_pattern m;
     monitor := monitor m; targets := targets m; completed := completed m |}.

Definition set_monitor (l : list Event) (m : Manager) : Manager :=
  {| cfg_recurse := cfg_recurse m; cfg_max_depth := cfg_max_depth m;
     cfg_threads := cfg_threads m; cfg_flag_format := cfg_flag_format m;
     outdir_exists := outdir_exists m; finder_match := finder_match m;
     finder_validate := finder_validate m; work := work m;
     barrier := barrier m; threads := threads m;
     flag_pattern := flag_pattern m; monitor := l; targets := targets m;
     completed := completed m |}.

Definition set_targets (l : list Target) (m : Manager) : Manager :=
  {| cfg_recurse := cfg_recurse m; cfg_max_depth := cfg_max_depth m;
     cfg_threads := cfg_threads m; cfg_flag_format := cfg_flag_format m;
     outdir_exists := outdir_exists m; finder_match := finder_match m;
     finder_validate := finder_validate m; work := work m;
     barrier := barrier m; threads := threads m;
     flag_pattern := flag_pattern m; monitor := monitor m; targets := l;
     completed := completed m |}.

Definition set_completed (s : gset target_id) (m : Manager) : Manager :=
  {| cfg_recurse := cfg_recurse m; cfg_max_depth := cfg_max_depth m;
     cfg_threads := cfg_threads m; cfg_flag_format := cfg_flag_format m;
     outdir_exists := outdir_exists m; finder_match := finder_match m;
     finder_validate := finder_validate m; work := work m;
     barrier := barrier m; threads := threads m;
     flag_pattern := flag_pattern m; monitor := monitor m;
     targets := targets m; completed := s |}.

Definition set_outdir_exists (o : bool) (m : Manager) : Manager :=
  {| cfg_recurse := cfg_recurse m; cfg_max_depth := cfg_max_depth m;
     cfg_threads := cfg_threads m; cfg_flag_format := cfg_flag_format m;
     outdir_exists := o; finder_match := finder_match m;
     finder_validate := finder_validate m; work := work m;
     barrier := barrier m; threads := threads m;
     flag_pattern := flag_pattern m; monitor := monitor m;
     targets := targets m; completed := completed m |}.

Definition set_flag_pattern (p : option Pattern) (m : Manager) : Manager :=
  {| cfg_recurse := cfg_recurse m; cfg_max_depth := cfg_max_depth m;
     cfg_threads := cfg_threads m; cfg_flag_format := cfg_flag_format m;
     outdir_exists := outdir_exists m; finder_match := finder_match m;
     finder_validate := finder_validate m; work := work m;
     barrier := barrier m; threads := threads m; flag_pattern := p;
     monitor := monitor m; targets := targets m; completed := completed m |}.

Definition set_threads (n : nat) (m : Manager) : Manager :=
  {| cfg_recurse := cfg_recurse m; cfg_max_depth := cfg_max_depth m;
     cfg_threads := cfg_threads m; cfg_flag_format := cfg_flag_format m;
     outdir_exists := outdir_exists m; finder_match := finder_match m;
     finder_validate := finder_validate m; work := work m;
     barrier := barrier m; threads := n; flag_pattern := flag_pattern m;
     monitor := monitor m; targets := targets m; completed := completed m |}.

(** [unit.origin.completed] *)
Definition origin_completed (u : Unit) (m : Manager) : bool :=
  bool_decide (origin u ∈ completed m).

#[global] Arguments origin_completed : simpl never.

(* ===================================================================== *)
(** ** The exception monad over the Manager *)
(* ===================================================================== *)

(** A call returns normally, raises, or has not returned within the
    steps it was given ([Unfinished]); each comes with the state reached. *)
Inductive Result (A : Type) : Type :=
| Ok (a : A) (m : Manager)
| Raised (e : Exn) (m : Manager)
| Unfinished (m : Manager).

Arguments Ok {A} a m.
Arguments Raised {A} e m.
Arguments Unfinished {A} m.

Definition M (A : Type) : Type := Manager -> Result A.

Definition ret {A} (a : A) : M A := fun m => Ok a m.

Definition bind {A B} (c : M A) (f : A -> M B) : M B :=
  fun m =>
    match c m with
    | Ok a m' => f a m'
    | Raised e m' => Raised e m'
    | Unfinished m' => Unfinished m'
    end.

Definition raise {A} (e : Exn) : M A := fun m => Raised e m.

Definition get {A} (f : Manager -> A) : M A := fun m => Ok (f m) m.

Definition modify (f : Manager -> Manager) : M unit := fun m => Ok tt (f m).

(** [try: c  except Exception as e: h e] *)
Definition try_except {A} (c : M A) (h : Exn -> M A) : M A :=
  fun m =>
    match c m with
    | Raised e m' => h e m'
    | r => r
    end.

Declare Scope manager_scope.
Delimit Scope manager_scope with mgr.

Notation "x <- c1 ;; c2" := (bind c1 (fun x => c2))
  (at level 100, c1 at next level, right associativity) : manager_scope.
Notation "c1 ;;; c2" := (bind c1 (fun _ => c2))
  (at level 100, c2 at level 200, right associativity) : manager_scope.

Open Scope manager_scope.

Fixpoint for_each {A} (l : list A) (body : A -> M unit) : M unit :=
  match l with
  | [] => ret tt
  | x :: l' => body x ;;; for_each l' body
  end.

(** The state a call has reached. *)
Definition final {A} (r : Result A) : Manager :=
  match r with
  | Ok _ m => m
  | Raised _ m => m
  | Unfinished m => m
  end.

(** The manager after the call [c]. *)
Definition exec {A} (c : M A) (m : Manager) : Manager := final (c m).

Definition emit (ev : Event) : M unit :=
  modify (fun m => set_monitor (monitor m ++ [ev]) m).

(* ===================================================================== *)
(** ** Flag search and registration *)
(* ===================================================================== *)

(** [Manager.register_flag] *)
Definition register_flag (u : Unit) (flag : text) : M unit :=
  (* Notify the monitor *)
  emit (on_flag u flag) ;;;
  (* Mark this unit as completed *)
  modify (fun m => set_completed ({[origin u]} ∪ completed m) m).

(** [if isinstance(data, str): data = data.encode('utf-8')]; the callers
    have dealt with lists and tuples. *)
Definition as_bytes (data : Data) : M bytes :=
  match data with
  | DBytes bs => ret bs
  | DStr s =>
    match utf8_encode s with
    | Some bs => ret bs
    | None => raise UnicodeEncodeError
    end
  | DList _ | DTuple _ => raise TypeError
  end.

(** [match.group().decode('utf-8')] *)
Definition decode (bs : bytes) : M text :=
  match utf8_decode bs with
  | Some s => ret s
  | None => raise UnicodeDecodeError
  end.

(** [self.flag_pattern.search(data)]; the attribute is [None] until
    [start] has compiled the pattern. *)
Definition search (data : bytes) : M (option Match) :=
  pat <- get flag_pattern ;;
  match pat with
  | Some p => ret (p data)
  | None => raise AttributeError
  end.

(** [Manager.find_flag]. [fuel] bounds the depth of the recursion; see
    [data_fuel] and [find_flag_rec_fuel] for the bound that is enough. *)
Fixpoint find_flag_rec (fuel : nat) (u : Unit) (data : Data) : M unit :=
  match fuel with
  | O => fun m => Unfinished m
  | S fuel' =>
    match data with
    | DList items | DTuple items =>
      (* Iterate over lists and tuples automatically *)
      for_each items (fun item => find_flag_rec fuel' u item)
    | _ =>
      (* We deal with bytes here *)
      data <- as_bytes data ;;
      let no_xml := no_xml data in
      (if negb (bytes_eqb no_xml data)
       then find_flag_rec fuel' u (DBytes no_xml)
       else ret tt) ;;;
      (* Search the data for flags *)
      mt <- search data ;;
      match mt with
      | Some mt =>
        (* Flags should be printable *)
        found <- decode (group mt data) ;;
        if isprintable found then
          (* Strict flags means that the flag will be alone in the output *)
          if STRICT_FLAGS u && (length found =? length data)%nat then
            register_flag u found
          else if negb (STRICT_FLAGS u) then
            register_flag u found
          else ret tt
        else ret tt
      | None => ret tt
      end
    end
  end.

Definition data_bytes_len (data : Data) : nat :=
  match data with
  | DBytes bs => length bs
  | DStr s => match utf8_encode s with Some bs => length bs | None => 0 end
  | _ => 0
  end.

(** Recursion depth that [find_flag] can reach on [data]. *)
Fixpoint data_fuel (data : Data) : nat :=
  match data with
  | DList items | DTuple items => S (list_max (map data_fuel items))
  | _ => S (data_bytes_len data)
  end.

Definition find_flag (u : Unit) (data : Data) : M unit :=
  find_flag_rec (data_fuel data) u data.

(* ===================================================================== *)
(** ** Queueing *)
(* ===================================================================== *)

(** [self.work.put(item)] *)
Definition put (item : WorkItem) : M unit :=
  modify (fun m => set_work (work m ++ [item]) m).

(** [self.barrier.reset()] *)
Definition barrier_reset : M unit :=
  bar <- get barrier ;;
  match bar with
  | Some x =>
    modify (set_barrier (Some {| parties := parties x; resets := S (resets x) |}))
  | None => raise AttributeError
  end.

(** [Manager.queue] *)
Definition queue (u : Unit) : M unit :=
  (* Check if we are completed *)
  done <- get (origin_completed u) ;;
  if done then ret tt
  else
    put {| priority := PRIORITY u; action := init; item_unit := Some u;
           generator := None |} ;;;
    (* Ensure sleeping threads wake up *)
    bar <- get barrier ;;
    match bar with
    | Some _ => barrier_reset
    | None => ret tt
    end.

(** [Manager.requeue] *)
Definition requeue (item : WorkItem) : M unit :=
  match item_unit item with
  | None => raise AttributeError
  | Some u =>
    (* Don't requeue completed items *)
    done <- get (origin_completed u) ;;
    if done then ret tt
    else
      (* We aren't initializing anymore *)
      put {| priority := priority item; action := evaluate_;
             item_unit := item_unit item; generator := generator item |}
  end.

(** [upstream.strip()] *)
Definition py_strip (x : Data) : M Data :=
  match x with
  | DBytes bs => ret (DBytes (strip bytes_space bs))
  | DStr s => ret (DStr (strip str_space s))
  | DList _ | DTuple _ => raise AttributeError
  end.

(** [x == ''] : only the empty [str] equals the [str] literal; a [bytes]
    object never does. *)
Definition eq_empty_str (x : Data) : bool :=
  match x with
  | DStr [] => true
  | _ => false
  end.

(** Modelled from the spec: [Manager.target] builds [Target(self,
    upstream, parent)], whose class is not part of the sources at hand. A
    root has depth 0 and is its own origin; a derived target has depth
    [parent.depth + 1] and its parent's origin. *)
Definition new_target (upstream : Data) (parent : option Unit) : M Target :=
  ts <- get targets ;;
  let t :=
    match parent with
    | None =>
      {| tid := length ts; upstream := upstream; parent := None;
         tdepth := 0; torigin := length ts |}
    | Some p =>
      {| tid := length ts; upstream := upstream; parent := Some p;
         tdepth := depth p + 1; torigin := origin p |}
    end in
  modify (fun m => set_targets (targets m ++ [t]) m) ;;;
  ret t.

(** [Manager.queue_target] *)
Definition queue_target (upstream : Data) (parent : option Unit)
  : M (option Target) :=
  (* That's silly... *)
  stripped <- py_strip upstream ;;
  if eq_empty_str stripped then ret None
  else
    (* Don't recurse if the parent is already done *)
    blocked <-
      match parent with
      | Some p =>
        (* Don't queue recursion for a completed target *)
        done <- get (origin_completed p) ;;
        if done then ret true
        else
          (* Maximum depth reached! *)
          max_depth <- get cfg_max_depth ;;
          if (depth p + 1 >=? max_depth)%Z then
            emit (on_depth_limit (target p) p) ;;; ret true
          else ret false
      | None => ret false
      end ;;
    if blocked : bool then ret None
    else
      (* Create the target object *)
      t <- new_target upstream parent ;;
      (* Enumerate valid units *)
      units <- get (fun m => finder_match m t) ;;
      for_each units queue ;;;
      (* Return the target object *)
      ret (Some t).

(** [Manager.register_artifact] *)
Definition register_artifact (u : Unit) (path : Data) (recurse : bool)
  : M unit :=
  (* Notify the monitor of an artifact *)
  emit (on_artifact u path) ;;;
  (* Recurse on this target *)
  g <- get cfg_recurse ;;
  if g && recurse then queue_target path (Some u) ;;; ret tt
  else ret tt.

(** [Manager.register_data] *)
Definition register_data (u : Unit) (data : Data) (recurse : bool)
  : M unit :=
  (* Notify the monitor of the data *)
  emit (on_data u data) ;;;
  (* Look for flags *)
  find_flag u data ;;;
  g <- get cfg_recurse ;;
  done <- get (origin_completed u) ;;
  if g && negb done && recurse then
    (* Only do full recursion if requested *)
    queue_target data (Some u) ;;; ret tt
  else ret tt.

(* ===================================================================== *)
(** ** Start, the driver loop and the worker loop *)
(* ===================================================================== *)

(** [Manager.start]. The worker threads it spawns are run by [_thread]. *)
Definition start : M unit :=
  (* Prepare the results directory: os.makedirs(outdir) *)
  ex <- get outdir_exists ;;
  if ex : bool then raise FileExistsError
  else
    modify (set_outdir_exists true) ;;;
    (* Validate the configuration *)
    fmt <- get cfg_flag_format ;;
    match fmt with
    | None => raise RuntimeError
    | Some r =>
      v <- get finder_validate ;;
      match v with
      | Some e => raise e
      | None =>
        (* Compile the flag pattern *)
        modify (set_flag_pattern (Some (re_compile r))) ;;;
        (* Create the barrier object *)
        n <- get cfg_threads ;;
        modify (set_barrier (Some {| parties := n + 1; resets := 0 |})) ;;;
        modify (set_threads n)
      end
    end.

(** How a [barrier.wait()] ends. *)
Inductive Wait : Type :=
| Passed
| BrokenBarrierError
| KeyboardInterrupt.

Definition abort_item : WorkItem :=
  {| priority := -10000; action := abort; item_unit := None;
     generator := None |}.

(** [Manager._signal_complete] *)
Definition _signal_complete : M unit :=
  n <- get threads ;;
  for_each (seq 0 n) (fun _ => put abort_item) ;;;
  (* Make all the workers wake up and grab these events *)
  barrier_reset.

(** The [while True] loop of [Manager.join]. The environment gives, for
    each [barrier.wait], how it ends and the clock read after it; the loop
    returns [did_timeout] and the waits it has not used. An exhausted
    environment is a wait that never ends. *)
Fixpoint join_loop (stop_time : option Z) (aborting : bool)
  (env : list (Wait * Z)) : M (bool * list (Wait * Z)) :=
  match env with
  | [] => fun m => Unfinished m
  | (w, now) :: env' =>
    (* Signal completion if our timeout has expired *)
    let check_timeout (aborting : bool) : M (bool * list (Wait * Z)) :=
      match stop_time with
      | Some st =>
        if (now >=? st)%Z then _signal_complete ;;; ret (true, env')
        else join_loop stop_time aborting env'
      | None => join_loop stop_time aborting env'
      end in
    bar <- get barrier ;;
    match bar with
    | None => raise AttributeError
    | Some _ =>
      match w with
      | BrokenBarrierError => check_timeout aborting
      | KeyboardInterrupt =>
        (* If we have already signaled, and we catch another Ctrl+C,
           just exit *)
        if aborting then ret (false, env')
        else
          (* Signal threads to exit cleanly *)
          _signal_complete ;;; check_timeout true
      | Passed =>
        (* Just in case, we signal completion *)
        _signal_complete ;;; ret (false, env')
      end
    end
  end.

(** [Manager.join]. [join_time] is the clock at the call. Waiting for the
    worker threads does not touch the manager. *)
Definition join (timeout : option Z) (join_time : Z) (env : list (Wait * Z))
  : M (bool * list (Wait * Z)) :=
  let stop_time := option_map (fun t => join_time + t)%Z timeout in
  (* Indicates we have already requested threads to cleanly exit *)
  let aborting := true in
  r <- join_loop stop_time aborting env ;;
  (* Notify the monitor that we are done *)
  emit (on_completion (fst r)) ;;;
  ret (negb (fst r), snd r).

(** [self.work.get(False)] on the priority queue: the first item of least
    priority, or [None] for [queue.Empty]. *)
Fixpoint pq_get (q : list WorkItem) : option (WorkItem * list WorkItem) :=
  match q with
  | [] => None
  | x :: q' =>
    match pq_get q' with
    | Some (y, rest) =>
      if (priority x <=? priority y)%Z then Some (x, q')
      else Some (y, x :: rest)
    | None => Some (x, [])
    end
  end.

(** [next(generator)] *)
Definition next (g : Gen) : GenStep * Gen :=
  (gen_next g (gen_pos g),
   {| gen_next := gen_next g; gen_pos := S (gen_pos g) |}).

(** The body of a unit's [evaluate], run for the unit itself. *)
Fixpoint run_script (u : Unit) (script : list Stmt) : M unit :=
  match script with
  | [] => ret tt
  | s :: rest =>
    match s with
    | SData data recurse => register_data u data recurse
    | SArtifact path recurse => register_artifact u path recurse
    | SFlag flag => register_flag u flag
    | SRaise e => raise e
    end ;;;
    run_script u rest
  end.

(** [except Exception] does not catch [KeyboardInterrupt]. *)
Definition is_Exception (e : Exn) : bool :=
  match e with
  | KeyboardInterruptExn => false
  | _ => true
  end.

(** One turn of the [while True] loop of [Manager._thread]: [true] to
    loop again, [false] when the loop is left. A raised exception leaves
    the method, and the thread with it. *)
Definition thread_turn (env : list Wait) : M (bool * list Wait) :=
  q <- get work ;;
  match pq_get q with
  | None =>
    (* queue.Empty: signal this thread is waiting for work *)
    bar <- get barrier ;;
    match bar, env with
    | None, _ => raise AttributeError
    | Some _, [] => fun m => Unfinished m
    | Some _, BrokenBarrierError :: env' => ret (true, env')
    | Some _, Passed :: env' => ret (false, env')
    | Some _, KeyboardInterrupt :: env' => raise KeyboardInterruptExn
    end
  | Some (item, q') =>
    modify (set_work q') ;;;
    match action item, item_unit item with
    | abort, _ =>
      (* The parent is asking nicely to exit *)
      ret (false, env)
    | _, None => raise AttributeError
    | act, Some u =>
      (* Ignore the unit if it is already completed *)
      done <- get (origin_completed u) ;;
      if done then ret (true, env)
      else
        g <-
          match act with
          | init =>
            (* work.generator = work.unit.enumerate() *)
            match enumerate u with
            | EnumGen g => ret (Some g)
            | EnumRaise e => raise e
            end
          | _ => ret (generator item)
          end ;;
        match g with
        | None => raise TypeError
        | Some g =>
          (* We have a unit to process, grab the next case *)
          match next g with
          | (StopIteration, _) => ret (true, env)
          | (GenRaise e, _) => raise e
          | (Yield case, g') =>
            requeue {| priority := priority item; action := act;
                       item_unit := Some u; generator := Some g' |} ;;;
            try_except (run_script u (evaluate u case))
              (fun e =>
                 if is_Exception e then emit (on_exception u e)
                 else raise e) ;;;
            ret (true, env)
          end
        end
    end
  end.

(** [Manager._thread]; [fuel] bounds the number of turns. *)
Fixpoint _thread (fuel : nat) (env : list Wait) : M unit :=
  match fuel with
  | O => fun m => Unfinished m
  | S fuel' =>
    r <- thread_turn env ;;
    if fst r then _thread fuel' (snd r) else ret tt
  end.

(* ===================================================================== *)
(** ** Runs of the manager *)
(* ===================================================================== *)

(** The calls made on a manager by its driver, its workers and the
    units. *)
Inductive Call : Type :=
| call_register_data (u : Unit) (data : Data) (recurse : bool)
| call_register_artifact (u : Unit) (path : Data) (recurse : bool)
| call_register_flag (u : Unit) (flag : text)
| call_find_flag (u : Unit) (data : Data)
| call_queue_target (upstream : Data) (parent : option Unit)
| call_queue (u : Unit)
| call_requeue (item : WorkItem)
| call_start
| call_join (timeout : option Z) (join_time : Z) (env : list (Wait * Z))
| call_signal_complete
| call_thread (fuel : nat) (env : list Wait).

Definition run_call (c : Call) (m : Manager) : Manager :=
  match c with
  | call_register_data u data recurse => exec (register_data u data recurse) m
  | call_register_artifact u path recurse =>
    exec (register_artifact u path recurse) m
  | call_register_flag u flag => exec (register_flag u flag) m
  | call_find_flag u data => exec (find_flag u data) m
  | call_queue_target upstream parent => exec (queue_target upstream parent) m
  | call_queue u => exec (queue u) m
  | call_requeue item => exec (requeue item) m
  | call_start => exec start m
  | call_join timeout join_time env => exec (join timeout join_time env) m
  | call_signal_complete => exec _signal_complete m
  | call_thread fuel env => exec (_thread fuel env) m
  end.

Definition run_calls (cs : list Call) (m : Manager) : Manager :=
  fold_left (fun m c => run_call c m) cs m.

(** The byte strings that [find_flag] may search for [data]: the data
    itself as bytes, what is left of it each time the tags are removed,
    and the same for every element of a list or tuple. *)
Inductive candidate : Data -> bytes -> Prop :=
| cand_bytes bs : candidate (DBytes bs) bs
| cand_str s bs : utf8_encode s = Some bs -> candidate (DStr s) bs
| cand_no_xml data c :
    candidate data c -> no_xml c <> c -> candidate data (no_xml c)
| cand_list items item c :
    In item items -> candidate item c -> candidate (DList items) c
| cand_tuple items item c :
    In item items -> candidate item c -> candidate (DTuple items) c.

(** The match of [pat] in [c] spans all of [c], and decodes to [flag]:
    the matched bytes are [c], and a span that lies inside [c] runs from
    its first byte to its last. *)
Definition whole_match (pat : Pattern) (c : bytes) (flag : text) : Prop :=
  exists mt,
    pat c = Some mt
    /\ group mt c = c
    /\ ((m_start mt <= m_end mt <= length c)%nat ->
        m_start mt = 0%nat /\ m_end mt = length c)
    /\ utf8_decode c = Some flag.

(** The manager after [register_flag u] was called for each of [flags]. *)
Definition flagged (u : Unit) (flags : list text) (m : Manager) : Manager :=
  set_completed
    (match flags with [] => completed m | _ => {[origin u]} ∪ completed m end)
    (set_monitor (monitor m ++ map (on_flag u) flags) m).

(* ===================================================================== *)
(** ** Sample objects *)
(* ===================================================================== *)

(** A unit that yields its payload once and registers it as data. *)
Definition identity_unit (strict : bool) (t : Target) : Unit :=
  {| PRIORITY := 50; STRICT_FLAGS := strict; target := tid t;
     origin := torigin t; depth := tdepth t;
     enumerate := EnumGen (gen_of_list [Yield (upstream t)]);
     evaluate := fun case => [SData case true] |}.

(** A unit whose [enumerate] raises. *)
Definition broken_unit (t : Target) : Unit :=
  {| PRIORITY := 50; STRICT_FLAGS := false; target := tid t;
     origin := torigin t; depth := tdepth t;
     enumerate := EnumRaise (UnitError 1);
     evaluate := fun case => [] |}.

(** A unit whose case generator raises on its first [next]. *)
Definition broken_gen_unit (t : Target) : Unit :=
  {| PRIORITY := 50; STRICT_FLAGS := false; target := tid t;
     origin := torigin t; depth := tdepth t;
     enumerate := EnumGen (gen_of_list [GenRaise (UnitError 2)]);
     evaluate := fun case => [] |}.

(** A manager as [Manager.__init__] leaves it, with the defaults
    [recurse = True], [max-depth = 10] and two threads. *)
Definition new_manager (fmt : regex) (finder : Target -> list Unit)
  : Manager :=
  {| cfg_recurse := true; cfg_max_depth := 10; cfg_threads := 2;
     cfg_flag_format := Some fmt; outdir_exists := false;
     finder_match := finder; finder_validate := None; work := [];
     barrier := None; threads := 0; flag_pattern := None; monitor := [];
     targets := []; completed := ∅ |}.

(** The manager of the scenarios, started. *)
Definition started (strict : bool) : Manager :=
  exec start (new_manager flag_braces (fun t => [identity_unit strict t])).

Definition root_target (payload : Data) : Target :=
  {| tid := 0; upstream := payload; parent := None; tdepth := 0;
     torigin := 0 |}.

(* ===================================================================== *)
(** ** Vocabulary of the statements *)
(* ===================================================================== *)

(** [m'] extends [m]: nothing completed is forgotten, the monitor has
    received more calls, more targets were built. *)
Record extends (m m' : Manager) : Prop := {
  ext_completed : completed m ⊆ completed m';
  ext_monitor : exists evs, monitor m' = monitor m ++ evs;
  ext_targets : exists ts, targets m' = targets m ++ ts
}.

(** [m'] has the queue, the barrier and the targets of [m]. *)
Record same_queue (m m' : Manager) : Prop := {
  same_work : work m' = work m;
  same_barrier : barrier m' = barrier m;
  same_targets : targets m' = targets m
}.

(** A call preserves the relation [R] when the state it reaches is
    related to the state it started from. *)
Definition preserves (R : Manager -> Manager -> Prop) {A} (c : M A) : Prop :=
  forall m, R m (final (c m)).

Abbreviation grows := (preserves extends).
Abbreviation quiet := (preserves same_queue).

Definition finished {A} (r : Result A) : Prop :=
  match r with
  | Unfinished _ => False
  | _ => True
  end.

(** The search of one byte string, once the tags-removed form has been
    dealt with: the last statements of [find_flag]. *)
Definition search_and_register (u : Unit) (data : bytes) : M unit :=
  mt <- search data ;;
  match mt with
  | Some mt =>
    found <- decode (group mt data) ;;
    if isprintable found then
      if STRICT_FLAGS u && (length found =? length data)%nat then
        register_flag u found
      else if negb (STRICT_FLAGS u) then
        register_flag u found
      else ret tt
    else ret tt
  | None => ret tt
  end.

(** The candidates of a list or tuple are those of its elements. *)
Definition candidate_in (items : list Data) (c : bytes) : Prop :=
  exists item, In item items /\ candidate item c.

(** Under strict flags, everything registered is a whole candidate. *)
Definition strict_ok (u : Unit) (pat : Pattern) (cand : bytes -> Prop)
  (flags : list text) : Prop :=
  STRICT_FLAGS u = true ->
  Forall (fun flag => exists c, cand c /\ whole_match pat c flag) flags.

(** Without strict flags, the printable match of each candidate is
    registered. *)
Definition loose_ok (u : Unit) (pat : Pattern) (cand : bytes -> Prop)
  (flags : list text) : Prop :=
  STRICT_FLAGS u = false ->
  forall c mt flag,
    cand c -> pat c = Some mt -> utf8_decode (group mt c) = Some flag ->
    isprintable flag = true -> In flag flags.

(** The call returned normally. *)
Definition returned {A} (r : Result A) : Prop :=
  match r with
  | Ok _ _ => True
  | _ => False
  end.

(** What a call of [find_flag] on data with the candidates [cand] has
    done to the manager [m]. *)
Definition flags_spec (u : Unit) (pat : Pattern) (cand : bytes -> Prop)
  (m : Manager) (r : Result unit) : Prop :=
  exists flags,
    final r = flagged u flags m
    /\ strict_ok u pat cand flags
    /\ (returned r -> loose_ok u pat cand flags).

(** The payload is a byte string or text. *)
Definition is_payload (x : Data) : bool :=
  match x with
  | DBytes _ | DStr _ => true
  | _ => false
  end.

(** The payload is empty once the surrounding whitespace is trimmed. *)
Definition is_blank (x : Data) : bool :=
  match x with
  | DBytes bs => match strip bytes_space bs with [] => true | _ => false end
  | DStr s => match strip str_space s with [] => true | _ => false end
  | _ => false
  end.

(** The payload without its surrounding whitespace. *)
Definition trimmed (x : Data) : Data :=
  match x with
  | DBytes bs => DBytes (strip bytes_space bs)
  | DStr s => DStr (strip str_space s)
  | x => x
  end.

(** The target that [queue_target] builds for [upstream] and [parent]. *)
Definition target_for (upstream : Data) (parent : option Unit) (m : Manager)
  : Target :=
  match parent with
  | None =>
    {| tid := length (targets m); upstream := upstream; parent := None;
       tdepth := 0; torigin := length (targets m) |}
  | Some p =>
    {| tid := length (targets m); upstream := upstream; parent := Some p;
       tdepth := depth p + 1; torigin := origin p |}
  end.

(** A unit at depth 9 below the root target 0. *)
Definition deep_unit : Unit :=
  {| PRIORITY := 50; STRICT_FLAGS := false; target := 9; origin := 0;
     depth := 9; enumerate := EnumGen (gen_of_list []);
     evaluate := fun case => [] |}.

(** [m'] has the configuration and the finder of [m]. *)
Record same_config (m m' : Manager) : Prop := {
  same_recurse : cfg_recurse m' = cfg_recurse m;
  same_max_depth : cfg_max_depth m' = cfg_max_depth m;
  same_cfg_threads : cfg_threads m' = cfg_threads m;
  same_flag_format : cfg_flag_format m' = cfg_flag_format m;
  same_finder_match : finder_match m' = finder_match m;
  same_finder_validate : finder_validate m' = finder_validate m
}.

(** The work item that [queue] builds for a unit. *)
Definition init_item (u : Unit) : WorkItem :=
  {| priority := PRIORITY u; action := init; item_unit := Some u;
     generator := None |}.

(** The units of [units] that [queue] lets through in the state [m]. *)
Definition queued_units (units : list Unit) (m : Manager) : list Unit :=
  List.filter (fun u => negb (origin_completed u m)) units.

(** The barrier after [n] more [reset()] calls. *)
Definition barrier_after (n : nat) (bar : option Barrier) : option Barrier :=
  match bar with
  | Some x => Some {| parties := parties x; resets := n + resets x |}
  | None => None
  end.

(** The manager after one [_signal_complete]: an abort item for each
    thread at the end of the queue, and the barrier reset. *)
Definition signalled (m : Manager) : Manager :=
  set_barrier (barrier_after 1 (barrier m))
    (set_work (work m ++ repeat abort_item (threads m)) m).

(** The manager after [queue] was called for each of [units]: an init
    item for each unit whose origin is not completed, in order, and the
    barrier reset once for each of them. *)
Definition enqueued (units : list Unit) (m : Manager) : Manager :=
  set_barrier (barrier_after (length (queued_units units m)) (barrier m))
    (set_work (work m ++ map init_item (queued_units units m)) m).

(** The guards [queue_target] has for the parent let it through. *)
Definition parent_allows (parent : option Unit) (m : Manager) : bool :=
  match parent with
  | None => true
  | Some p =>
    negb (origin_completed p m) && (depth p + 1 <? cfg_max_depth m)%Z
  end.

(** The item is for a unit whose origin is completed. *)
Definition stale (m : Manager) (item : WorkItem) : Prop :=
  action item <> abort
  /\ exists u, item_unit item = Some u /\ origin_completed u m = true.

(** The generator over the steps [l], after [k] calls of [next]. *)
Definition gen_at (l : list GenStep) (k : nat) : Gen :=
  {| gen_next := fun i => nth i l StopIteration; gen_pos := k |}.

(** The work item of [u] as [requeue] puts it back, with its generator. *)
Definition evaluate_item (u : Unit) (g : Gen) : WorkItem :=
  {| priority := PRIORITY u; action := evaluate_; item_unit := Some u;
     generator := Some g |}.

(** The item is the one of [u], and gives the worker the generator [g]:
    by [enumerate] at its first turn, from the item afterwards. *)
Definition item_of (u : Unit) (g : Gen) (item : WorkItem) : Prop :=
  (item = init_item u /\ enumerate u = EnumGen g)
  \/ item = evaluate_item u g.

(** An [evaluate] that registers the artifacts [paths], without
    recursion. *)
Definition artifacts (paths : list Data) : list Stmt :=
  map (fun p => SArtifact p false) paths.

(** A target as [queue_target] may build it under the depth limit
    [max_depth]: a root, or the child of a unit whose depth leaves room. *)
Definition within_depth (max_depth : Z) (t : Target) : Prop :=
  match parent t with
  | None => tdepth t = 0%Z
  | Some p => tdepth t = (depth p + 1)%Z /\ (depth p + 1 < max_depth)%Z
  end.

(** [m'] has the depth limit of [m], and the targets of [m] followed by
    targets within that limit. *)
Record bounded (m m' : Manager) : Prop := {
  bounded_limit : cfg_max_depth m' = cfg_max_depth m;
  bounded_targets :
    exists ts,
      targets m' = targets m ++ ts
      /\ Forall (within_depth (cfg_max_depth m)) ts
}.

(** The monitor of [m'] has received [evs] since [m], and the origins
    completed since are those of the units whose flags are in [evs]. *)
Definition noted_by (evs : list Event) (m m' : Manager) : Prop :=
  monitor m' = monitor m ++ evs
  /\ forall o,
       o ∈ completed m'
       <-> o ∈ completed m
           \/ exists u flag, In (on_flag u flag) evs /\ origin u = o.

Definition noted (m m' : Manager) : Prop := exists evs, noted_by evs m m'.

(** The generator never raises. *)
Definition good_gen (g : Gen) : Prop := forall k e, gen_next g k <> GenRaise e.

(** [enumerate] returns a generator, and one that never raises. *)
Definition good_unit (u : Unit) : Prop :=
  exists g, enumerate u = EnumGen g /\ good_gen g.

(** A work item as the manager builds them, for such a unit: the abort
    item, the init item of a unit, or an item put back by the worker with
    the unit's generator. *)
Definition good_item (item : WorkItem) : Prop :=
  match action item, item_unit item with
  | abort, _ => True
  | init, Some u => good_unit u
  | evaluate_, Some u => exists g, generator item = Some g /\ good_gen g
  | _, None => False
  end.

(** A started manager whose queue holds such items and whose finder
    matches such units only. *)
Definition sound (m : Manager) : Prop :=
  barrier m <> None
  /\ Forall good_item (work m)
  /\ forall t u, In u (finder_match m t) -> good_unit u.

(** [m'] has the finder of [m] and the queue of [m] followed by init
    items of units the finder matches; a barrier stays one. *)
Definition queues_more (m m' : Manager) : Prop :=
  finder_match m' = finder_match m
  /\ (barrier m <> None -> barrier m' <> None)
  /\ exists us,
       work m' = work m ++ map init_item us
       /\ Forall (fun u => exists t, In u (finder_match m t)) us.

(** A unit that yields its payload once; its [evaluate] raises. *)
Definition raising_unit (t : Target) : Unit :=
  {| PRIORITY := 50; STRICT_FLAGS := false; target := tid t;
     origin := torigin t; depth := tdepth t;
     enumerate := EnumGen (gen_of_list [Yield (upstream t)]);
     evaluate := fun _ => [SRaise (UnitError 3)] |}.

(* ===================================================================== *)
(** ** Basic facts *)
(* ===================================================================== *)

Lemma bytes_eqb_eq (x y : bytes) : bytes_eqb x y = true <-> x = y.
Proof.
  revert y; induction x as [|c x IH]; intros [|d y]; simpl;
    try (split; [discriminate | discriminate]); try tauto.
  rewrite andb_true_iff, IH. split.
  - intros [H ->]. apply Byte.byte_dec_bl in H. now subst.
  - intros [= -> ->]. split; [now apply Byte.byte_dec_lb | reflexivity].
Qed.

Lemma bytes_eqb_neq (x y : bytes) : bytes_eqb x y = false <-> x <> y.
Proof.
  rewrite <- bytes_eqb_eq. destruct (bytes_eqb x y); split; congruence.
Qed.

(** Decoding never yields more characters than there are bytes. *)
Lemma utf8_decode_length_le (n : nat) :
  forall bs s, (length bs <= n)%nat -> utf8_decode bs = Some s ->
               (length s <= length bs)%nat.
Proof.
  induction n as [|n IH]; intros bs s Hn H.
  - destruct bs; simpl in *; [injection H as <-; simpl; lia | lia].
  - destruct bs as [|b0 r0]; [injection H as <-; simpl; lia|].
    simpl in Hn. cbn [utf8_decode] in H. cbv zeta in H.
    repeat match type of H with
    | (if ?c then _ else _) = Some _ => destruct c
    | match ?l with [] => _ | _ :: _ => _ end = Some _ =>
        destruct l; simpl in Hn
    | option_map _ (utf8_decode ?r) = Some _ =>
        let E := fresh "E" in
        destruct (utf8_decode r) eqn:E; simpl in H;
          [apply IH in E; [|lia]; injection H as <-; simpl; lia
          | discriminate]
    | None = Some _ => discriminate
    end.
Qed.

Lemma utf8_decode_length (bs : bytes) (s : text) :
  utf8_decode bs = Some s -> (length s <= length bs)%nat.
Proof. apply (utf8_decode_length_le (length bs)); lia. Qed.

Lemma group_length (mt : Match) (data : bytes) :
  (length (group mt data) <= length data - m_start mt)%nat.
Proof.
  unfold group. rewrite length_firstn, length_skipn. lia.
Qed.

(** A match whose text is as long as the data is the data itself. *)
Lemma group_whole (mt : Match) (data : bytes) (s : text) :
  utf8_decode (group mt data) = Some s ->
  length s = length data ->
  group mt data = data.
Proof.
  intros Hd Hlen. apply utf8_decode_length in Hd.
  pose proof (group_length mt data) as Hg.
  unfold group in *.
  assert (m_start mt = 0%nat \/ data = []) as [Hs | ->].
  { destruct data; [now right | left; simpl in *; lia]. }
  - rewrite Hs in *. rewrite skipn_O in *. rewrite length_firstn in Hd.
    apply firstn_all2. lia.
  - now rewrite skipn_nil, firstn_nil.
Qed.

(** For a span inside the data, matching all of it means going from its
    first byte to its last. *)
Lemma group_whole_span (mt : Match) (data : bytes) :
  (m_start mt <= m_end mt <= length data)%nat ->
  group mt data = data ->
  m_start mt = 0%nat /\ m_end mt = length data.
Proof.
  intros Hv Hg. apply (f_equal (@length byte)) in Hg.
  unfold group in Hg. rewrite length_firstn, length_skipn in Hg. lia.
Qed.

(** Whatever the matcher returns, its continuation returned. *)
Lemma rmatch_cont {A} (r : regex) :
  forall (s : bytes) (k : bytes -> option A) (x : A),
    rmatch r s k = Some x -> exists s', k s' = Some x.
Proof.
  induction r as [|p|r1 IH1 r2 IH2|r1 IH1 r2 IH2|r1 IH1]; intros s k x; simpl.
  - eauto.
  - destruct s as [|c s]; [discriminate|]. destruct (p c); [eauto|discriminate].
  - intros H. apply IH1 in H as [s' H]. eauto.
  - destruct (rmatch r1 s k) eqn:E; [intros [= <-]; eauto | eauto].
  - generalize (length s) at 1. intros n. revert s.
    induction n as [|n IHn]; intros s; [eauto|].
    destruct (rmatch r1 s _) eqn:E; [|eauto].
    intros [= <-]. apply IH1 in E as [s' E].
    destruct (length s' <? length s)%nat; [eauto|discriminate].
Qed.

Lemma match_len_le (r : regex) (s : bytes) (n : nat) :
  match_len r s = Some n -> (n <= length s)%nat.
Proof.
  unfold match_len. intros H. apply rmatch_cont in H as [s' [= <-]]. lia.
Qed.

(** The spans of [re_search] lie inside the data. *)
Lemma re_search_from_span (r : regex) (s : bytes) :
  forall pos mt, re_search_from r pos s = Some mt ->
    (pos <= m_start mt <= m_end mt)%nat
    /\ (m_end mt <= pos + length s)%nat.
Proof.
  induction s as [|c s IH]; intros pos mt; simpl.
  - destruct (match_len r []) as [n|] eqn:E; [|discriminate].
    intros [= <-]. simpl. apply match_len_le in E. simpl in E. lia.
  - destruct (match_len r (c :: s)) as [n|] eqn:E.
    + intros [= <-]. simpl. apply match_len_le in E. simpl in E. lia.
    + intros H. apply IH in H. lia.
Qed.

Lemma re_compile_span (r : regex) (data : bytes) (mt : Match) :
  re_compile r data = Some mt ->
  (m_start mt <= m_end mt <= length data)%nat.
Proof.
  intros H. apply re_search_from_span in H. lia.
Qed.

(** Deleting matches yields a shorter byte string, or the same one. *)
Lemma re_delete_from_length (r : regex) (s : bytes) :
  forall k, (length (re_delete_from r k s) <= length s)%nat.
Proof.
  induction s as [|c s IH]; intros k; simpl; [lia|].
  destruct k as [|k].
  - pose proof (IH 0%nat).
    destruct (match_len r (c :: s)) as [[|j]|]; simpl;
      try pose proof (IH j); lia.
  - specialize (IH k). lia.
Qed.

Lemma re_delete_from_same_length (r : regex) (s : bytes) :
  forall k, length (re_delete_from r k s) = length s ->
            re_delete_from r k s = s.
Proof.
  induction s as [|c s IH]; intros k; simpl; [reflexivity|].
  destruct k as [|k].
  - destruct (match_len r (c :: s)) as [[|j]|]; simpl; intros H;
      try (f_equal; apply IH; lia);
      pose proof (re_delete_from_length r s j); lia.
  - intros H. pose proof (re_delete_from_length r s k). lia.
Qed.

Lemma no_xml_shorter (data : bytes) :
  no_xml data <> data -> (length (no_xml data) < length data)%nat.
Proof.
  intros Hne. unfold no_xml, re_delete in *.
  pose proof (re_delete_from_length xml_tag data 0).
  destruct (Nat.eq_dec (length (re_delete_from xml_tag 0 data)) (length data))
    as [E|E]; [|lia].
  apply re_delete_from_same_length in E. contradiction.
Qed.

(* ===================================================================== *)
(** ** What every call preserves *)
(* ===================================================================== *)

Section Preserves.

(** A relation between the state before and the state reached. *)
Variable R : Manager -> Manager -> Prop.
Hypothesis R_refl : forall m, R m m.
Hypothesis R_trans : forall m1 m2 m3, R m1 m2 -> R m2 m3 -> R m1 m3.

Lemma preserves_ret {A} (a : A) : preserves R (ret a).
Proof using R_refl. intros m. apply R_refl. Qed.

Lemma preserves_raise {A} (e : Exn) : preserves R (@raise A e).
Proof using R_refl. intros m. apply R_refl. Qed.

Lemma preserves_get {A} (f : Manager -> A) : preserves R (get f).
Proof using R_refl. intros m. apply R_refl. Qed.

Lemma preserves_unfinished {A} : preserves R (fun m => @Unfinished A m).
Proof using R_refl. intros m. apply R_refl. Qed.

Lemma preserves_modify (f : Manager -> Manager) :
  (forall m, R m (f m)) -> preserves R (modify f).
Proof. intros H m. apply H. Qed.

Lemma preserves_bind {A B} (c : M A) (f : A -> M B) :
  preserves R c -> (forall a, preserves R (f a)) -> preserves R (bind c f).
Proof using R_trans.
  intros Hc Hf m. unfold bind. specialize (Hc m).
  destruct (c m) as [a m'|e m'|m']; simpl in *; [|assumption|assumption].
  eapply R_trans; [eassumption | apply Hf].
Qed.

Lemma preserves_try_except {A} (c : M A) (h : Exn -> M A) :
  preserves R c -> (forall e, preserves R (h e)) -> preserves R (try_except c h).
Proof using R_trans.
  intros Hc Hh m. unfold try_except. specialize (Hc m).
  destruct (c m) as [a m'|e m'|m']; simpl in *; [assumption| |assumption].
  eapply R_trans; [eassumption | apply Hh].
Qed.

Lemma preserves_for_each {A} (l : list A) (body : A -> M unit) :
  (forall x, In x l -> preserves R (body x)) -> preserves R (for_each l body).
Proof using R_refl R_trans.
  induction l as [|x l IH]; intros H; simpl.
  - apply preserves_ret.
  - apply preserves_bind; [apply H; now left | intros _].
    apply IH. intros y Hy. apply H. now right.
Qed.

End Preserves.

Lemma extends_refl (m : Manager) : extends m m.
Proof.
  split; [set_solver | exists []; now rewrite app_nil_r
         | exists []; now rewrite app_nil_r].
Qed.

Lemma extends_same (m m' : Manager) :
  completed m' = completed m -> monitor m' = monitor m ->
  targets m' = targets m -> extends m m'.
Proof.
  intros Hc Hm Ht.
  split; [now rewrite Hc | exists []; now rewrite app_nil_r
         | exists []; now rewrite app_nil_r].
Qed.

Lemma extends_trans (m1 m2 m3 : Manager) :
  extends m1 m2 -> extends m2 m3 -> extends m1 m3.
Proof.
  intros [C1 [e1 E1] [t1 T1]] [C2 [e2 E2] [t2 T2]]. split.
  - set_solver.
  - exists (e1 ++ e2). now rewrite E2, E1, app_assoc.
  - exists (t1 ++ t2). now rewrite T2, T1, app_assoc.
Qed.

Lemma same_queue_refl (m : Manager) : same_queue m m.
Proof. now split. Qed.

Lemma same_queue_trans (m1 m2 m3 : Manager) :
  same_queue m1 m2 -> same_queue m2 m3 -> same_queue m1 m3.
Proof. intros [] []. split; congruence. Qed.

Lemma extends_set_work (q : list WorkItem) (m : Manager) :
  extends m (set_work q m).
Proof. now apply extends_same. Qed.

Lemma extends_set_barrier (x : option Barrier) (m : Manager) :
  extends m (set_barrier x m).
Proof. now apply extends_same. Qed.

Lemma extends_set_outdir_exists (o : bool) (m : Manager) :
  extends m (set_outdir_exists o m).
Proof. now apply extends_same. Qed.

Lemma extends_set_flag_pattern (p : option Pattern) (m : Manager) :
  extends m (set_flag_pattern p m).
Proof. now apply extends_same. Qed.

Lemma extends_set_threads (n : nat) (m : Manager) :
  extends m (set_threads n m).
Proof. now apply extends_same. Qed.

Lemma extends_add_work (item : WorkItem) (m : Manager) :
  extends m (set_work (work m ++ [item]) m).
Proof. now apply extends_same. Qed.

Lemma extends_mark_completed (o : target_id) (m : Manager) :
  extends m (set_completed ({[o]} ∪ completed m) m).
Proof.
  split; simpl; [set_solver | exists []; now rewrite app_nil_r
                | exists []; now rewrite app_nil_r].
Qed.

Lemma extends_add_target (t : Target) (m : Manager) :
  extends m (set_targets (targets m ++ [t]) m).
Proof.
  split; simpl; [set_solver | exists []; now rewrite app_nil_r | eauto].
Qed.

Lemma extends_add_event (ev : Event) (m : Manager) :
  extends m (set_monitor (monitor m ++ [ev]) m).
Proof.
  split; simpl; [set_solver | eauto | exists []; now rewrite app_nil_r].
Qed.

Lemma same_queue_mark_completed (o : target_id) (m : Manager) :
  same_queue m (set_completed ({[o]} ∪ completed m) m).
Proof. now split. Qed.

Lemma same_queue_add_event (ev : Event) (m : Manager) :
  same_queue m (set_monitor (monitor m ++ [ev]) m).
Proof. now split. Qed.

Create HintDb preserves discriminated.

#[local] Hint Resolve extends_refl same_queue_refl extends_set_work extends_set_barrier
  extends_set_outdir_exists extends_set_flag_pattern extends_set_threads
  extends_add_work extends_mark_completed extends_add_target
  extends_add_event same_queue_mark_completed same_queue_add_event
  : preserves.

Ltac preorder :=
  first [ exact extends_refl | exact extends_trans | exact same_queue_refl
        | exact same_queue_trans | assumption ].

(** Walks through a method body, one statement at a time. *)
Ltac step_through :=
  repeat match goal with
  | |- preserves _ (bind _ _) =>
      apply preserves_bind; [preorder | | intros ?]
  | |- preserves _ (try_except _ _) =>
      apply preserves_try_except; [preorder | | intros ?]
  | |- preserves _ (modify _) => apply preserves_modify; intros ?
  | |- preserves _ (emit _) => apply preserves_modify; intros ?
  | |- preserves _ (put _) => apply preserves_modify; intros ?
  | |- preserves _ (for_each _ _) =>
      apply preserves_for_each; [preorder | preorder | intros ? ?]
  | |- preserves _ (ret _) => apply preserves_ret; preorder
  | |- preserves _ (raise _) => apply preserves_raise; preorder
  | |- preserves _ (get _) => apply preserves_get; preorder
  | |- preserves _ (fun m => Unfinished m) =>
      apply preserves_unfinished; preorder
  | |- preserves _ (as_bytes _) => unfold as_bytes
  | |- preserves _ (decode _) => unfold decode
  | |- preserves _ (search _) => unfold search
  | |- preserves _ (let _ := _ in _) => cbv zeta
  | |- preserves _ (match ?x with _ => _ end) => destruct x
  | |- preserves _ _ => solve [auto with preserves]
  | |- extends _ _ => solve [auto with preserves]
  | |- same_queue _ _ => solve [auto with preserves]
  end.

Lemma grows_register_flag (u : Unit) (flag : text) :
  grows (register_flag u flag).
Proof. unfold register_flag. step_through. Qed.

Lemma quiet_register_flag (u : Unit) (flag : text) :
  quiet (register_flag u flag).
Proof. unfold register_flag. step_through. Qed.

#[local] Hint Resolve grows_register_flag quiet_register_flag : preserves.

Lemma grows_find_flag_rec (fuel : nat) :
  forall u data, grows (find_flag_rec fuel u data).
Proof.
  induction fuel as [|fuel IH]; intros u data; simpl; [step_through|].
  destruct data; step_through; apply IH.
Qed.

Lemma quiet_find_flag_rec (fuel : nat) :
  forall u data, quiet (find_flag_rec fuel u data).
Proof.
  induction fuel as [|fuel IH]; intros u data; simpl; [step_through|].
  destruct data; step_through; apply IH.
Qed.

Lemma grows_find_flag (u : Unit) (data : Data) : grows (find_flag u data).
Proof. apply grows_find_flag_rec. Qed.

(** [find_flag] leaves the queue, the barrier and the targets alone. *)
Lemma quiet_find_flag (u : Unit) (data : Data) : quiet (find_flag u data).
Proof. apply quiet_find_flag_rec. Qed.

Lemma grows_barrier_reset : grows barrier_reset.
Proof. unfold barrier_reset. step_through. Qed.

#[local] Hint Resolve grows_find_flag grows_barrier_reset : preserves.

Lemma grows_queue (u : Unit) : grows (queue u).
Proof. unfold queue. step_through. Qed.

Lemma grows_requeue (item : WorkItem) : grows (requeue item).
Proof. unfold requeue. step_through. Qed.

Lemma grows_py_strip (x : Data) : grows (py_strip x).
Proof. unfold py_strip. step_through. Qed.

Lemma grows_new_target (upstream : Data) (parent : option Unit) :
  grows (new_target upstream parent).
Proof. unfold new_target. step_through. Qed.

#[local] Hint Resolve grows_queue grows_requeue grows_py_strip
  grows_new_target : preserves.

Lemma grows_queue_target (upstream : Data) (parent : option Unit) :
  grows (queue_target upstream parent).
Proof. unfold queue_target. step_through. Qed.

#[local] Hint Resolve grows_queue_target : preserves.

Lemma grows_register_artifact (u : Unit) (path : Data) (recurse : bool) :
  grows (register_artifact u path recurse).
Proof. unfold register_artifact. step_through. Qed.

Lemma grows_register_data (u : Unit) (data : Data) (recurse : bool) :
  grows (register_data u data recurse).
Proof. unfold register_data. step_through. Qed.

#[local] Hint Resolve grows_register_artifact grows_register_data
  : preserves.

Lemma grows_start : grows start.
Proof. unfold start. step_through. Qed.

Lemma grows_signal_complete : grows _signal_complete.
Proof. unfold _signal_complete. step_through. Qed.

#[local] Hint Resolve grows_start grows_signal_complete : preserves.

Lemma grows_join_loop (stop_time : option Z) (env : list (Wait * Z)) :
  forall aborting, grows (join_loop stop_time aborting env).
Proof.
  induction env as [|[w now] env IH]; intros aborting; simpl; step_through.
Qed.

Lemma grows_join (timeout : option Z) (join_time : Z)
  (env : list (Wait * Z)) : grows (join timeout join_time env).
Proof.
  unfold join. step_through. apply grows_join_loop.
Qed.

Lemma grows_run_script (u : Unit) (script : list Stmt) :
  grows (run_script u script).
Proof. induction script as [|s script IH]; simpl; step_through. Qed.

#[local] Hint Resolve grows_join grows_run_script : preserves.

Lemma grows_thread_turn (env : list Wait) : grows (thread_turn env).
Proof. unfold thread_turn, next. step_through. Qed.

Lemma grows_thread (fuel : nat) : forall env, grows (_thread fuel env).
Proof.
  induction fuel as [|fuel IH]; intros env; simpl; step_through.
  apply grows_thread_turn.
Qed.

Lemma extends_run_call (c : Call) (m : Manager) : extends m (run_call c m).
Proof.
  destruct c; simpl; unfold exec.
  - apply grows_register_data.
  - apply grows_register_artifact.
  - apply grows_register_flag.
  - apply grows_find_flag.
  - apply grows_queue_target.
  - apply grows_queue.
  - apply grows_requeue.
  - apply grows_start.
  - apply grows_join.
  - apply grows_signal_complete.
  - apply grows_thread.
Qed.

(** Whatever is called on the manager, in whatever order. *)
Lemma extends_run_calls (cs : list Call) :
  forall m, extends m (run_calls cs m).
Proof.
  induction cs as [|c cs IH]; intros m; simpl; [apply extends_refl|].
  eapply extends_trans; [apply extends_run_call | apply IH].
Qed.

(* ===================================================================== *)
(** ** [find_flag] returns *)
(* ===================================================================== *)

Lemma finished_bind {A B} (c : M A) (f : A -> M B) (m : Manager) :
  finished (c m) -> (forall a m', finished (f a m')) -> finished (bind c f m).
Proof.
  unfold bind. destruct (c m); simpl; auto.
Qed.

Lemma finished_for_each {A} (l : list A) (body : A -> M unit) :
  (forall x m, In x l -> finished (body x m)) ->
  forall m, finished (for_each l body m).
Proof.
  induction l as [|x l IH]; intros H m; simpl; [exact I|].
  apply finished_bind; [apply H; now left|].
  intros _ m'. apply IH. intros y m'' Hy. apply H. now right.
Qed.

Lemma for_each_ext {A} (l : list A) (f g : A -> M unit) :
  (forall x m, In x l -> f x m = g x m) ->
  forall m, for_each l f m = for_each l g m.
Proof.
  induction l as [|x l IH]; intros H m; simpl; [reflexivity|].
  unfold bind. rewrite H by now left.
  destruct (g x m); try reflexivity.
  apply IH. intros y m'' Hy. apply H. now right.
Qed.

Lemma list_max_In (l : list nat) (k : nat) :
  In k l -> (k <= list_max l)%nat.
Proof.
  induction l as [|x l IH]; simpl; [tauto|].
  intros [-> | H]; [lia | specialize (IH H); lia].
Qed.

Lemma data_fuel_item (items : list Data) (item : Data) :
  In item items -> (data_fuel item <= list_max (map data_fuel items))%nat.
Proof.
  intros H. apply list_max_In. now apply in_map.
Qed.

Lemma data_fuel_no_xml (bs : bytes) :
  bytes_eqb (no_xml bs) bs = false ->
  (data_fuel (DBytes (no_xml bs)) <= length bs)%nat.
Proof.
  intros H. apply bytes_eqb_neq, no_xml_shorter in H. simpl. lia.
Qed.

Lemma finished_search_and_register (u : Unit) (data : bytes) (m : Manager) :
  finished (search_and_register u data m).
Proof.
  unfold search_and_register, search, decode, bind, get, ret, raise,
    register_flag, emit, modify.
  destruct (flag_pattern m) as [p|]; simpl; [|exact I].
  destruct (p data) as [mt|]; simpl; [|exact I].
  destruct (utf8_decode (group mt data)) as [found|]; simpl; [|exact I].
  destruct (isprintable found), (STRICT_FLAGS u),
    (length found =? length data)%nat; simpl; exact I.
Qed.

(** One unfolding of [find_flag] on a byte string. *)
Lemma find_flag_rec_bytes (fuel : nat) (u : Unit) (bs : bytes) :
  find_flag_rec (S fuel) u (DBytes bs)
  = ((if negb (bytes_eqb (no_xml bs) bs)
      then find_flag_rec fuel u (DBytes (no_xml bs))
      else ret tt) ;;;
     search_and_register u bs).
Proof. reflexivity. Qed.

Lemma find_flag_rec_str (fuel : nat) (u : Unit) (s : text) :
  find_flag_rec (S fuel) u (DStr s)
  = match utf8_encode s with
    | Some bs => find_flag_rec (S fuel) u (DBytes bs)
    | None => raise UnicodeEncodeError
    end.
Proof.
  simpl. unfold as_bytes. destruct (utf8_encode s); reflexivity.
Qed.

Lemma find_flag_rec_finished (u : Unit) (fuel : nat) :
  forall data m, (data_fuel data <= fuel)%nat ->
                 finished (find_flag_rec fuel u data m).
Proof.
  induction fuel as [|fuel IH]; intros data m Hf.
  - destruct data; simpl in Hf; lia.
  - assert (Hb : forall bs m, (length bs <= fuel)%nat ->
                finished (find_flag_rec (S fuel) u (DBytes bs) m)).
    { intros bs m' Hl. rewrite find_flag_rec_bytes.
      apply finished_bind; [|intros; apply finished_search_and_register].
      destruct (bytes_eqb (no_xml bs) bs) eqn:E; simpl; [exact I|].
      apply IH. apply data_fuel_no_xml in E. lia. }
    destruct data as [bs|s|items|items].
    + apply Hb. simpl in Hf. lia.
    + rewrite find_flag_rec_str. simpl in Hf.
      destruct (utf8_encode s) as [bs|]; [apply Hb; lia | exact I].
    + simpl. apply finished_for_each. intros x m' Hx. apply IH.
      apply data_fuel_item in Hx. simpl in Hf. lia.
    + simpl. apply finished_for_each. intros x m' Hx. apply IH.
      apply data_fuel_item in Hx. simpl in Hf. lia.
Qed.

(** [find_flag] always returns or raises. *)
Lemma find_flag_finished (u : Unit) (data : Data) (m : Manager) :
  finished (find_flag u data m).
Proof. apply find_flag_rec_finished. lia. Qed.

(** More fuel than [data_fuel] changes nothing. *)
Lemma find_flag_rec_fuel (u : Unit) (fuel1 : nat) :
  forall fuel2 data m,
    (data_fuel data <= fuel1)%nat -> (data_fuel data <= fuel2)%nat ->
    find_flag_rec fuel1 u data m = find_flag_rec fuel2 u data m.
Proof.
  induction fuel1 as [|fuel1 IH]; intros fuel2 data m H1 H2.
  - destruct data; simpl in H1; lia.
  - destruct fuel2 as [|fuel2]; [destruct data; simpl in H2; lia|].
    assert (Hb : forall bs m, (length bs <= fuel1)%nat ->
                (length bs <= fuel2)%nat ->
                find_flag_rec (S fuel1) u (DBytes bs) m
                = find_flag_rec (S fuel2) u (DBytes bs) m).
    { intros bs m' Hl1 Hl2. rewrite !find_flag_rec_bytes. unfold bind.
      destruct (bytes_eqb (no_xml bs) bs) eqn:E; simpl; [reflexivity|].
      apply data_fuel_no_xml in E.
      rewrite (IH fuel2) by lia. reflexivity. }
    destruct data as [bs|s|items|items].
    + simpl in H1, H2. apply Hb; lia.
    + rewrite !find_flag_rec_str. simpl in H1, H2.
      destruct (utf8_encode s) as [bs|]; [apply Hb; lia | reflexivity].
    + simpl. apply for_each_ext. intros x m' Hx.
      apply data_fuel_item in Hx. simpl in H1, H2. apply IH; lia.
    + simpl. apply for_each_ext. intros x m' Hx.
      apply data_fuel_item in Hx. simpl in H1, H2. apply IH; lia.
Qed.

Lemma find_flag_rec_enough (u : Unit) (fuel : nat) (data : Data)
  (m : Manager) :
  (data_fuel data <= fuel)%nat ->
  find_flag_rec fuel u data m = find_flag u data m.
Proof. intros H. apply find_flag_rec_fuel; [assumption | lia]. Qed.

(* ===================================================================== *)
(** ** What [find_flag] registers *)
(* ===================================================================== *)

Lemma flagged_nil (u : Unit) (m : Manager) : flagged u [] m = m.
Proof.
  destruct m. unfold flagged, set_completed, set_monitor. simpl.
  now rewrite app_nil_r.
Qed.

Lemma flagged_app (u : Unit) (f1 f2 : list text) (m : Manager) :
  flagged u f2 (flagged u f1 m) = flagged u (f1 ++ f2) m.
Proof.
  destruct f2 as [|y f2].
  - now rewrite flagged_nil, app_nil_r.
  - unfold flagged, set_completed, set_monitor. simpl.
    rewrite map_app, <- app_assoc. simpl.
    destruct f1 as [|x f1]; simpl; [reflexivity|].
    f_equal. now rewrite (assoc_L (∪)), (idemp_L (∪)).
Qed.

Lemma register_flag_flagged (u : Unit) (flag : text) (m : Manager) :
  register_flag u flag m = Ok tt (flagged u [flag] m).
Proof. reflexivity. Qed.

Lemma flag_pattern_flagged (u : Unit) (flags : list text) (m : Manager) :
  flag_pattern (flagged u flags m) = flag_pattern m.
Proof. reflexivity. Qed.

Lemma candidate_no_xml_bytes (bs c : bytes) :
  no_xml bs <> bs -> candidate (DBytes (no_xml bs)) c ->
  candidate (DBytes bs) c.
Proof.
  intros Hne H. remember (DBytes (no_xml bs)) as d eqn:Ed.
  induction H as [bs'|s bs' E|d c' H IH Hc|items item c' Hi H IH
                 |items item c' Hi H IH]; try discriminate.
  - injection Ed as ->. apply cand_no_xml; [constructor | assumption].
  - apply cand_no_xml; [now apply IH | assumption].
Qed.

Lemma candidate_str (s : text) (bs c : bytes) :
  utf8_encode s = Some bs -> candidate (DBytes bs) c -> candidate (DStr s) c.
Proof.
  intros He H. remember (DBytes bs) as d eqn:Ed.
  induction H as [bs'|s' bs' E|d c' H IH Hc|items item c' Hi H IH
                 |items item c' Hi H IH]; try discriminate.
  - injection Ed as ->. now constructor.
  - apply cand_no_xml; [now apply IH | assumption].
Qed.

Lemma candidate_bytes_inv (bs c : bytes) :
  candidate (DBytes bs) c ->
  c = bs \/ (no_xml bs <> bs /\ candidate (DBytes (no_xml bs)) c).
Proof.
  intros H. remember (DBytes bs) as d eqn:Ed.
  induction H as [bs'|s' bs' E|d c' H IH Hc|items item c' Hi H IH
                 |items item c' Hi H IH]; try discriminate.
  - injection Ed as ->. now left.
  - right. destruct (IH Ed) as [-> | [Hne H']].
    + split; [assumption | constructor].
    + split; [assumption | now apply cand_no_xml].
Qed.

Lemma candidate_str_inv (s : text) (c : bytes) :
  candidate (DStr s) c ->
  exists bs, utf8_encode s = Some bs /\ candidate (DBytes bs) c.
Proof.
  intros H. remember (DStr s) as d eqn:Ed.
  induction H as [bs'|s' bs' E|d c' H IH Hc|items item c' Hi H IH
                 |items item c' Hi H IH]; try discriminate.
  - injection Ed as ->. exists bs'. split; [assumption | constructor].
  - destruct (IH Ed) as (bs & He & H'). exists bs.
    split; [assumption | now apply cand_no_xml].
Qed.

Lemma candidate_list_inv (items : list Data) (c : bytes) :
  candidate (DList items) c -> candidate_in items c.
Proof.
  intros H. remember (DList items) as d eqn:Ed.
  induction H as [bs'|s' bs' E|d c' H IH Hc|items' item c' Hi H IH
                 |items' item c' Hi H IH]; try discriminate.
  - destruct (IH Ed) as (item & Hi & H'). exists item.
    split; [assumption | now apply cand_no_xml].
  - injection Ed as ->. now exists item.
Qed.

Lemma candidate_tuple_inv (items : list Data) (c : bytes) :
  candidate (DTuple items) c -> candidate_in items c.
Proof.
  intros H. remember (DTuple items) as d eqn:Ed.
  induction H as [bs'|s' bs' E|d c' H IH Hc|items' item c' Hi H IH
                 |items' item c' Hi H IH]; try discriminate.
  - destruct (IH Ed) as (item & Hi & H'). exists item.
    split; [assumption | now apply cand_no_xml].
  - injection Ed as ->. now exists item.
Qed.

Section FindFlag.

Variable u : Unit.
Variable pat : Pattern.

Lemma flags_spec_weaken (cand cand' : bytes -> Prop) m r :
  (forall c, cand c <-> cand' c) ->
  flags_spec u pat cand m r -> flags_spec u pat cand' m r.
Proof.
  intros Hc (flags & Hf & Hs & Hl). exists flags. split; [assumption|].
  split.
  - intros Hst. specialize (Hs Hst). eapply List.Forall_impl; [|exact Hs].
    intros flag (c & Hcc & Hw). exists c. split; [now apply Hc | assumption].
  - intros Hr Hst c mt flag Hcc. apply (Hl Hr Hst). now apply Hc.
Qed.

(** Sequencing two searches. *)
Lemma flags_spec_seq (cand1 cand2 : bytes -> Prop) (c1 c2 : M unit) m :
  flags_spec u pat cand1 m (c1 m) ->
  (forall m', flag_pattern m' = flag_pattern m ->
              flags_spec u pat cand2 m' (c2 m')) ->
  flags_spec u pat (fun c => cand1 c \/ cand2 c) m (bind c1 (fun _ => c2) m).
Proof.
  intros (f1 & Hf1 & Hs1 & Hl1) H2. unfold bind.
  destruct (c1 m) as [[] m1|e m1|m1]; simpl in Hf1; subst m1.
  - destruct (H2 (flagged u f1 m) eq_refl) as (f2 & Hf2 & Hs2 & Hl2).
    exists (f1 ++ f2). split; [now rewrite Hf2, flagged_app|]. split.
    + intros Hst. apply Forall_app. split.
      * eapply List.Forall_impl; [|exact (Hs1 Hst)].
        intros flag (c & Hc & Hw). exists c. tauto.
      * eapply List.Forall_impl; [|exact (Hs2 Hst)].
        intros flag (c & Hc & Hw). exists c. tauto.
    + intros Hr Hst c mt flag [Hc | Hc] Hp Hd Hpr; apply in_or_app.
      * left. exact (Hl1 I Hst c mt flag Hc Hp Hd Hpr).
      * right. exact (Hl2 Hr Hst c mt flag Hc Hp Hd Hpr).
  - exists f1. split; [reflexivity|]. split; [|intros []].
    intros Hst. eapply List.Forall_impl; [|exact (Hs1 Hst)].
    intros flag (c & Hc & Hw). exists c. tauto.
  - exists f1. split; [reflexivity|]. split; [|intros []].
    intros Hst. eapply List.Forall_impl; [|exact (Hs1 Hst)].
    intros flag (c & Hc & Hw). exists c. tauto.
Qed.

Lemma flags_spec_skip (m : Manager) :
  flags_spec u pat (fun _ => False) m (ret tt m).
Proof.
  exists []. split; [now rewrite flagged_nil|]. split.
  - intros _. constructor.
  - intros _ _ c mt flag [].
Qed.

Lemma flags_spec_raise (e : Exn) (cand : bytes -> Prop) (m : Manager) :
  flags_spec u pat cand m (Raised e m).
Proof.
  exists []. split; [now rewrite flagged_nil|]. split.
  - intros _. constructor.
  - intros [].
Qed.

Lemma flags_spec_unfinished (cand : bytes -> Prop) (m : Manager) :
  flags_spec u pat cand m (Unfinished m).
Proof.
  exists []. split; [now rewrite flagged_nil|]. split.
  - intros _. constructor.
  - intros [].
Qed.

(** The search of one byte string. *)
Lemma search_and_register_spec (data : bytes) (m : Manager) :
  flag_pattern m = Some pat ->
  flags_spec u pat (eq data) m (search_and_register u data m).
Proof.
  intros Hp.
  unfold search_and_register, search, decode, bind, get, ret, raise.
  rewrite Hp.
  destruct (pat data) as [mt|] eqn:Em.
  2:{ exists []. split; [now rewrite flagged_nil|]. split.
      - intros _. constructor.
      - intros _ _ c mt flag <-. congruence. }
  destruct (utf8_decode (group mt data)) as [found|] eqn:Ed.
  2:{ apply flags_spec_raise. }
  destruct (isprintable found) eqn:Epr.
  2:{ exists []. split; [now rewrite flagged_nil|]. split.
      - intros _. constructor.
      - intros _ _ c mt' flag <-. congruence. }
  destruct (STRICT_FLAGS u) eqn:Est; simpl.
  - destruct (length found =? length data)%nat eqn:El.
    + apply Nat.eqb_eq in El. exists [found]. split; [reflexivity|].
      split; [|intros _ Hst; congruence].
      intros _. constructor; [|constructor].
      exists data. split; [reflexivity|]. exists mt.
      pose proof (group_whole mt data found Ed El) as Hg.
      split; [assumption|]. split; [assumption|].
      split; [intros Hv; now apply group_whole_span|].
      now rewrite <- Hg at 1.
    + exists []. split; [now rewrite flagged_nil|]. split.
      * intros _. constructor.
      * intros _ Hst; congruence.
  - exists [found]. split; [reflexivity|]. split; [intros Hst; congruence|].
    intros _ _ c mt' flag <-. rewrite Em. intros [= <-].
    rewrite Ed. intros [= <-] _. now left.
Qed.

Lemma for_each_spec (body : Data -> M unit) (items : list Data) :
  (forall item m, In item items -> flag_pattern m = Some pat ->
                  flags_spec u pat (candidate item) m (body item m)) ->
  forall m, flag_pattern m = Some pat ->
            flags_spec u pat (candidate_in items) m (for_each items body m).
Proof.
  induction items as [|x items IH]; intros H m Hp; simpl.
  - eapply flags_spec_weaken; [|apply flags_spec_skip].
    intros c. split; [intros [] | intros (item & [] & _)].
  - eapply flags_spec_weaken; cycle 1.
    + apply flags_spec_seq.
      * apply H; [now left | assumption].
      * intros m' Hm'. apply IH; [|congruence].
        intros item m'' Hi. apply H. now right.
    + intros c. split.
      * intros [Hc | (item & Hi & Hc)];
          [exists x; split; [now left | eassumption]
          | exists item; split; [now right | assumption]].
      * intros (item & [<- | Hi] & Hc); [now left | right; now exists item].
Qed.

Lemma find_flag_rec_spec (fuel : nat) :
  forall data m, flag_pattern m = Some pat ->
    flags_spec u pat (candidate data) m (find_flag_rec fuel u data m).
Proof.
  induction fuel as [|fuel IH]; intros data m Hp.
  - apply flags_spec_unfinished.
  - assert (Hb : forall bs m, flag_pattern m = Some pat ->
              flags_spec u pat (candidate (DBytes bs)) m
                (find_flag_rec (S fuel) u (DBytes bs) m)).
    { intros bs m' Hp'. rewrite find_flag_rec_bytes.
      destruct (bytes_eqb (no_xml bs) bs) eqn:E; cbn [negb].
      - apply bytes_eqb_eq in E.
        eapply flags_spec_weaken; cycle 1.
        + apply flags_spec_seq.
          * apply flags_spec_skip.
          * intros m'' Hm''. apply search_and_register_spec. congruence.
        + intros c. split.
          * intros [[] | <-]. constructor.
          * intros Hc. apply candidate_bytes_inv in Hc as [-> | [Hne _]];
              [now right | contradiction].
      - apply bytes_eqb_neq in E.
        eapply flags_spec_weaken; cycle 1.
        + apply flags_spec_seq.
          * apply IH. assumption.
          * intros m'' Hm''. apply search_and_register_spec. congruence.
        + intros c. split.
          * intros [Hc | <-]; [|constructor].
            apply candidate_no_xml_bytes; [assumption | exact Hc].
          * intros Hc. apply candidate_bytes_inv in Hc as [-> | [Hne Hc]];
              [now right | left; exact Hc]. }
    destruct data as [bs|s|items|items].
    + now apply Hb.
    + rewrite find_flag_rec_str.
      destruct (utf8_encode s) as [bs|] eqn:Ee.
      * eapply flags_spec_weaken; [|apply Hb; assumption].
        intros c. split; [now apply candidate_str|].
        intros Hc. apply candidate_str_inv in Hc as (bs' & He & Hc).
        congruence.
      * apply flags_spec_raise.
    + simpl. eapply flags_spec_weaken; cycle 1.
      * apply for_each_spec; [|assumption].
        intros item m' _ Hp'. now apply IH.
      * intros c. split; [|apply candidate_list_inv].
        intros (item & Hi & Hc). now apply cand_list with item.
    + simpl. eapply flags_spec_weaken; cycle 1.
      * apply for_each_spec; [|assumption].
        intros item m' _ Hp'. now apply IH.
      * intros c. split; [|apply candidate_tuple_inv].
        intros (item & Hi & Hc). now apply cand_tuple with item.
Qed.

End FindFlag.

(** [flagged] is the effect of calling [register_flag] for each flag. *)
Lemma flagged_register_flags (u : Unit) (flags : list text) :
  forall m, for_each flags (register_flag u) m = Ok tt (flagged u flags m).
Proof.
  induction flags as [|flag flags IH]; intros m; simpl.
  - unfold ret. now rewrite flagged_nil.
  - unfold bind. rewrite register_flag_flagged, IH.
    now rewrite (flagged_app u [flag] flags).
Qed.

(* ===================================================================== *)
(** ** Strict flags *)
(* ===================================================================== *)

(** On a byte string without tags, [find_flag] is the search alone. *)
Lemma find_flag_plain_bytes (u : Unit) (bs : bytes) (m : Manager) :
  no_xml bs = bs ->
  find_flag u (DBytes bs) m = search_and_register u bs m.
Proof.
  intros H. unfold find_flag. cbn [data_fuel data_bytes_len].
  rewrite find_flag_rec_bytes. apply bytes_eqb_eq in H. rewrite H.
  reflexivity.
Qed.

(** Without strict flags the search registers a printable match. *)
Lemma search_and_register_loose (u : Unit) (pat : Pattern) (bs : bytes)
  (mt : Match) (flag : text) (m : Manager) :
  STRICT_FLAGS u = false -> flag_pattern m = Some pat ->
  pat bs = Some mt -> utf8_decode (group mt bs) = Some flag ->
  isprintable flag = true ->
  search_and_register u bs m = Ok tt (flagged u [flag] m).
Proof.
  intros Hst Hp Hm Hd Hpr.
  unfold search_and_register, search, decode, bind, get, ret.
  rewrite Hp, Hm, Hd, Hpr, Hst. reflexivity.
Qed.

(** With a pattern compiled by [re_compile], what a strict unit registers
    is matched from the first to the last byte of its candidate. *)
Lemma find_flag_strict_span (u : Unit) (data : Data) (m : Manager)
  (r : regex) :
  flag_pattern m = Some (re_compile r) -> STRICT_FLAGS u = true ->
  exists flags,
    final (find_flag u data m) = flagged u flags m
    /\ Forall (fun flag =>
                 exists c mt,
                   candidate data c /\ re_compile r c = Some mt
                   /\ m_start mt = 0%nat /\ m_end mt = length c
                   /\ utf8_decode c = Some flag) flags.
Proof.
  intros Hp Hst.
  destruct (find_flag_rec_spec u (re_compile r) (data_fuel data) data m Hp)
    as (flags & Hf & Hs & _).
  exists flags. split; [exact Hf|].
  eapply List.Forall_impl; [|exact (Hs Hst)].
  intros flag (c & Hc & mt & Hm & _ & Hv & Hd).
  exists c, mt. specialize (Hv (re_compile_span r c mt Hm)). tauto.
Qed.

(** C1. Let [find_flag] run for the unit [u] on [data], with a compiled
    flag pattern. What it does to the manager is to call [register_flag]
    for some list of flags. If [u.STRICT_FLAGS] is true, each of these
    flags is the match of the pattern in a candidate byte string of
    [data], and the match is the whole candidate. If [u.STRICT_FLAGS] is
    false, the printable match of a byte string without tags is
    registered, wherever it lies; and so is, when the call returns, the
    printable match of every candidate. *)
Theorem find_flag_strict_flags (u : Unit) (data : Data) (m : Manager)
  (pat : Pattern) :
  flag_pattern m = Some pat ->
  exists flags,
    final (find_flag u data m) = flagged u flags m
    /\ (STRICT_FLAGS u = true ->
        Forall (fun flag =>
                  exists c, candidate data c /\ whole_match pat c flag) flags)
    /\ (STRICT_FLAGS u = false ->
        forall bs mt flag,
          data = DBytes bs -> no_xml bs = bs -> pat bs = Some mt ->
          utf8_decode (group mt bs) = Some flag -> isprintable flag = true ->
          find_flag u data m = Ok tt (flagged u [flag] m))
    /\ (STRICT_FLAGS u = false -> returned (find_flag u data m) ->
        forall c mt flag,
          candidate data c -> pat c = Some mt ->
          utf8_decode (group mt c) = Some flag -> isprintable flag = true ->
          In flag flags).
Proof.
  intros Hp.
  destruct (find_flag_rec_spec u pat (data_fuel data) data m Hp)
    as (flags & Hf & Hs & Hl).
  exists flags. split; [exact Hf|]. split; [exact Hs|]. split.
  - intros Hst bs mt flag -> Hx Hm Hd Hpr.
    rewrite find_flag_plain_bytes by assumption.
    now apply search_and_register_loose with pat mt.
  - intros Hst Hr. exact (Hl Hr Hst).
Qed.

Lemma find_flag_strict_flags_witness :
  (exists flags,
     final (find_flag (identity_unit true (root_target (DBytes (b "seed"))))
              (DBytes (b "<x>FLAG{abc}</x>")) (started true))
     = flagged (identity_unit true (root_target (DBytes (b "seed")))) flags
         (started true)
     /\ Forall (fun flag =>
                  exists c, candidate (DBytes (b "<x>FLAG{abc}</x>")) c
                            /\ whole_match (re_compile flag_braces) c flag)
          flags)
  /\ find_flag (identity_unit false (root_target (DBytes (b "seed"))))
       (DBytes (b "noise FLAG{abc} noise")) (started false)
     = Ok tt
         (flagged (identity_unit false (root_target (DBytes (b "seed"))))
            [[70; 76; 65; 71; 123; 97; 98; 99; 125]%N] (started false))
  /\ (exists flags,
        final (find_flag
                 (identity_unit false (root_target (DBytes (b "seed"))))
                 (DBytes (b "<b>noise</b> FLAG{abc}")) (started false))
        = flagged (identity_unit false (root_target (DBytes (b "seed"))))
            flags (started false)
        /\ In [70; 76; 65; 71; 123; 97; 98; 99; 125]%N flags).
Proof.
  split; [|split].
  - destruct (find_flag_strict_flags
                (identity_unit true (root_target (DBytes (b "seed"))))
                (DBytes (b "<x>FLAG{abc}</x>")) (started true)
                (re_compile flag_braces) eq_refl)
      as (flags & Hf & Hs & _ & _).
    exists flags. split; [exact Hf | exact (Hs eq_refl)].
  - destruct (find_flag_strict_flags
                (identity_unit false (root_target (DBytes (b "seed"))))
                (DBytes (b "noise FLAG{abc} noise")) (started false)
                (re_compile flag_braces) eq_refl)
      as (flags & _ & _ & Hp & _).
    apply (Hp eq_refl (b "noise FLAG{abc} noise")
             {| m_start := 6; m_end := 15 |});
      vm_compute; reflexivity.
  - destruct (find_flag_strict_flags
                (identity_unit false (root_target (DBytes (b "seed"))))
                (DBytes (b "<b>noise</b> FLAG{abc}")) (started false)
                (re_compile flag_braces) eq_refl)
      as (flags & Hf & _ & _ & Hl).
    exists flags. split; [exact Hf|].
    apply (Hl eq_refl I (b "<b>noise</b> FLAG{abc}")
             {| m_start := 13; m_end := 22 |}).
    + constructor.
    + vm_compute. reflexivity.
    + vm_compute. reflexivity.
    + vm_compute. reflexivity.
Defined.

(** The scenarios of the specification. *)
Example strict_flag_rejected :
  find_flag (identity_unit true (root_target (DBytes (b "seed"))))
    (DBytes (b "prefix FLAG{abc}")) (started true)
  = Ok tt (started true).
Proof. vm_compute. reflexivity. Qed.

Example strict_flag_accepted :
  find_flag (identity_unit true (root_target (DBytes (b "seed"))))
    (DBytes (b "FLAG{abc}")) (started true)
  = Ok tt
      (flagged (identity_unit true (root_target (DBytes (b "seed"))))
         [[70; 76; 65; 71; 123; 97; 98; 99; 125]%N] (started true)).
Proof. vm_compute. reflexivity. Qed.

Example strict_flag_in_xml :
  find_flag (identity_unit true (root_target (DBytes (b "seed"))))
    (DBytes (b "<x>FLAG{abc}</x>")) (started true)
  = Ok tt
      (flagged (identity_unit true (root_target (DBytes (b "seed"))))
         [[70; 76; 65; 71; 123; 97; 98; 99; 125]%N] (started true)).
Proof. vm_compute. reflexivity. Qed.

Example trivial_match_run :
  monitor
    (exec (join None 0 [(Passed, 1%Z)])
       (exec (_thread 5 [Passed])
          (exec (queue_target (DBytes (b "noise FLAG{abc} noise")) None)
             (started false))))
  = [on_data
       (identity_unit false
          (root_target (DBytes (b "noise FLAG{abc} noise"))))
       (DBytes (b "noise FLAG{abc} noise"));
     on_flag
       (identity_unit false
          (root_target (DBytes (b "noise FLAG{abc} noise"))))
       [70; 76; 65; 71; 123; 97; 98; 99; 125]%N;
     on_completion false].
Proof. vm_compute. reflexivity. Qed.

(* ===================================================================== *)
(** ** Exceptions of [find_flag] *)
(* ===================================================================== *)

(** C2. [find_flag] raises: for the flag format "FLAG{[^}]+}" and the
    byte string FLAG{\xff}, the match is the whole data, it is not valid
    UTF-8, and decoding it raises [UnicodeDecodeError] out of [find_flag],
    whatever the unit and the rest of the manager. *)
Theorem find_flag_raises_on_undecodable_match (u : Unit) (m : Manager) :
  flag_pattern m = Some (re_compile flag_braces) ->
  find_flag u (DBytes (b "FLAG{" ++ [xff] ++ b "}")) m
  = Raised UnicodeDecodeError m.
Proof.
  intros Hp. unfold find_flag.
  change (data_fuel (DBytes (b "FLAG{" ++ [xff] ++ b "}"))) with 8%nat.
  rewrite find_flag_rec_bytes.
  replace (bytes_eqb (no_xml (b "FLAG{" ++ [xff] ++ b "}"))
             (b "FLAG{" ++ [xff] ++ b "}")) with true
    by (vm_compute; reflexivity).
  unfold bind, ret, search_and_register, search, get, bind. cbn [negb].
  rewrite Hp.
  replace (re_compile flag_braces (b "FLAG{" ++ [xff] ++ b "}"))
    with (Some {| m_start := 0; m_end := 7 |}) by (vm_compute; reflexivity).
  reflexivity.
Qed.

Lemma find_flag_raises_on_undecodable_match_witness :
  find_flag (identity_unit false (root_target (DBytes (b "seed"))))
    (DBytes (b "FLAG{" ++ [xff] ++ b "}")) (started false)
  = Raised UnicodeDecodeError (started false).
Proof.
  apply (find_flag_raises_on_undecodable_match
           (identity_unit false (root_target (DBytes (b "seed"))))
           (started false)).
  reflexivity.
Defined.

(** Bytes that are not valid UTF-8 do no harm outside the match. *)
Example find_flag_raw_bytes :
  monitor
    (exec (find_flag (identity_unit false (root_target (DBytes (b "seed"))))
             (DBytes ([xff] ++ b " FLAG{abc}"))) (started false))
  = [on_flag (identity_unit false (root_target (DBytes (b "seed"))))
       [70; 76; 65; 71; 123; 97; 98; 99; 125]%N].
Proof. vm_compute. reflexivity. Qed.

(* ===================================================================== *)
(** ** Completion *)
(* ===================================================================== *)

Lemma origin_completed_true (u : Unit) (m : Manager) :
  origin_completed u m = true <-> origin u ∈ completed m.
Proof. unfold origin_completed. apply bool_decide_eq_true. Qed.

Lemma origin_completed_extends (u : Unit) (m m' : Manager) :
  extends m m' -> origin_completed u m = true ->
  origin_completed u m' = true.
Proof.
  intros [Hc _ _]. rewrite !origin_completed_true. set_solver.
Qed.

(** C9. After [register_flag] the origin is completed; calling it again
    for a unit of the same origin leaves the completed flags as they are;
    and no call on the manager, by the driver, a worker or a unit, makes a
    completed origin not completed. *)
Theorem register_flag_idempotent_monotonic (u u' : Unit)
  (flag flag' : text) (cs : list Call) (m : Manager) :
  origin u' = origin u ->
  origin_completed u (exec (register_flag u flag) m) = true
  /\ completed (exec (register_flag u' flag') (exec (register_flag u flag) m))
     = completed (exec (register_flag u flag) m)
  /\ (forall v, origin_completed v m = true ->
                origin_completed v (run_calls cs m) = true).
Proof.
  intros Ho. split; [|split].
  - apply origin_completed_true. simpl. set_solver.
  - simpl. rewrite Ho. now rewrite (assoc_L (∪)), (idemp_L (∪)).
  - intros v. apply origin_completed_extends, extends_run_calls.
Qed.

Lemma register_flag_idempotent_monotonic_witness :
  origin_completed (identity_unit true (root_target (DBytes (b "seed"))))
    (exec (register_flag
             (identity_unit true (root_target (DBytes (b "seed")))) [70%N])
       (started true)) = true
  /\ completed
       (exec (register_flag
                (identity_unit false (root_target (DBytes (b "other"))))
                [71%N])
          (exec (register_flag
                   (identity_unit true (root_target (DBytes (b "seed"))))
                   [70%N]) (started true)))
     = completed
         (exec (register_flag
                  (identity_unit true (root_target (DBytes (b "seed"))))
                  [70%N]) (started true))
  /\ (forall v, origin_completed v (started true) = true ->
        origin_completed v
          (run_calls [call_queue_target (DBytes (b "seed")) None;
                      call_thread 5 [Passed]] (started true)) = true).
Proof.
  apply (register_flag_idempotent_monotonic
           (identity_unit true (root_target (DBytes (b "seed"))))
           (identity_unit false (root_target (DBytes (b "other"))))).
  reflexivity.
Defined.

(** With a completed origin, [register_data] is the monitor call and the
    flag search, and nothing else. *)
Lemma register_data_completed (u : Unit) (data : Data) (recurse : bool)
  (m : Manager) :
  origin_completed u m = true ->
  register_data u data recurse m
  = (emit (on_data u data) ;;; find_flag u data) m.
Proof.
  intros Hc. unfold register_data, bind, emit, modify.
  pose proof (grows_find_flag u data
                (set_monitor (monitor m ++ [on_data u data]) m)) as Hg.
  destruct (find_flag u data _) as [[] m3|e m3|m3]; try reflexivity.
  simpl in Hg. unfold get.
  rewrite (origin_completed_extends u m m3), andb_false_r; [reflexivity| |].
  - eapply extends_trans; [apply extends_add_event | exact Hg].
  - assumption.
Qed.

Lemma same_queue_register_data (u : Unit) (data : Data) (recurse : bool)
  (m : Manager) :
  origin_completed u m = true ->
  same_queue m (exec (register_data u data recurse) m).
Proof.
  intros Hc. unfold exec. rewrite register_data_completed by assumption.
  revert m Hc.
  change (forall m, origin_completed u m = true ->
           same_queue m
             (final ((emit (on_data u data);;; find_flag u data) m))).
  intros m _. revert m.
  change (quiet (emit (on_data u data) ;;; find_flag u data)).
  step_through. apply quiet_find_flag.
Qed.

(** With a completed origin, [queue_target] for a parent stops before it
    builds anything. *)
Lemma queue_target_completed_parent (upstream : Data) (p : Unit)
  (m : Manager) :
  origin_completed p m = true ->
  queue_target upstream (Some p) m = Ok None m
  \/ queue_target upstream (Some p) m = Raised AttributeError m.
Proof.
  intros Hc. unfold queue_target, bind, py_strip, get.
  destruct upstream as [bs|s|items|items]; simpl.
  - rewrite Hc. now left.
  - destruct (strip str_space s); [now left|]. rewrite Hc. now left.
  - now right.
  - now right.
Qed.

Lemma same_queue_register_artifact (u : Unit) (path : Data)
  (recurse : bool) (m : Manager) :
  origin_completed u m = true ->
  same_queue m (exec (register_artifact u path recurse) m).
Proof.
  intros Hc.
  unfold exec, register_artifact, bind, emit, modify, get.
  destruct (cfg_recurse _ && recurse); [|now split].
  destruct (queue_target_completed_parent path u
              (set_monitor (monitor m ++ [on_artifact u path]) m) Hc)
    as [-> | ->]; now split.
Qed.

(** C4. Once [register_flag] has been called for a unit [u0], then
    whatever else is called on the manager afterwards, a
    [register_data] or [register_artifact] for a unit [u] of the same
    origin leaves the work queue, and the targets, as they are: no
    WorkItem is enqueued and no Target is created. *)
Theorem no_recursion_after_flag (u0 u : Unit) (flag : text)
  (cs : list Call) (data : Data) (recurse : bool) (m : Manager) :
  origin u = origin u0 ->
  let m1 := run_calls cs (exec (register_flag u0 flag) m) in
  work (exec (register_data u data recurse) m1) = work m1
  /\ targets (exec (register_data u data recurse) m1) = targets m1
  /\ work (exec (register_artifact u data recurse) m1) = work m1
  /\ targets (exec (register_artifact u data recurse) m1) = targets m1.
Proof.
  intros Ho m1.
  assert (Hc : origin_completed u m1 = true).
  { apply origin_completed_extends with (exec (register_flag u0 flag) m).
    - apply extends_run_calls.
    - apply origin_completed_true. rewrite Ho. simpl. set_solver. }
  destruct (same_queue_register_data u data recurse m1 Hc) as [W1 _ T1].
  destruct (same_queue_register_artifact u data recurse m1 Hc) as [W2 _ T2].
  auto.
Qed.

Lemma no_recursion_after_flag_witness :
  work (exec (register_data
                (identity_unit false (root_target (DBytes (b "seed"))))
                (DBytes (b "more")) true)
          (run_calls [call_queue_target (DBytes (b "other")) None]
             (exec (register_flag
                      (identity_unit false (root_target (DBytes (b "seed"))))
                      [70%N]) (started false))))
  = work (run_calls [call_queue_target (DBytes (b "other")) None]
            (exec (register_flag
                     (identity_unit false (root_target (DBytes (b "seed"))))
                     [70%N]) (started false))).
Proof.
  refine (proj1 (no_recursion_after_flag
                   (identity_unit false (root_target (DBytes (b "seed"))))
                   (identity_unit false (root_target (DBytes (b "seed"))))
                   [70%N] [call_queue_target (DBytes (b "other")) None]
                   (DBytes (b "more")) true (started false) _)).
  reflexivity.
Defined.

(** C10. [register_data] always hands the data to the monitor first and
    always runs [find_flag] to its end, on the manager the monitor call
    left; what [find_flag] has told the monitor and has marked completed
    stays. When the origin of the unit is already completed this is all it
    does: only the recursion is left out. *)
Theorem register_data_always_reports (u : Unit) (data : Data)
  (recurse : bool) (m : Manager) :
  monitor (exec (emit (on_data u data)) m) = monitor m ++ [on_data u data]
  /\ finished (find_flag u data (exec (emit (on_data u data)) m))
  /\ extends (exec (find_flag u data) (exec (emit (on_data u data)) m))
       (exec (register_data u data recurse) m)
  /\ (origin_completed u m = true ->
      register_data u data recurse m
      = (emit (on_data u data) ;;; find_flag u data) m).
Proof.
  split; [reflexivity|]. split; [apply find_flag_finished|]. split.
  - assert (Hrest : grows (g <- get cfg_recurse ;;
                           done <- get (origin_completed u) ;;
                           if g && negb done && recurse
                           then queue_target data (Some u) ;;; ret tt
                           else ret tt)) by step_through.
    unfold exec, register_data, emit, modify. unfold bind at 1 2. simpl.
    destruct (find_flag u data _) as [[] m3|e m3|m3]; simpl.
    + apply Hrest.
    + apply extends_refl.
    + apply extends_refl.
  - apply register_data_completed.
Qed.

Lemma register_data_always_reports_witness :
  register_data (identity_unit false (root_target (DBytes (b "seed"))))
    (DBytes (b "FLAG{abc}")) true
    (exec (register_flag
             (identity_unit false (root_target (DBytes (b "seed")))) [70%N])
       (started false))
  = (emit (on_data (identity_unit false (root_target (DBytes (b "seed"))))
             (DBytes (b "FLAG{abc}"))) ;;;
     find_flag (identity_unit false (root_target (DBytes (b "seed"))))
       (DBytes (b "FLAG{abc}")))
      (exec (register_flag
               (identity_unit false (root_target (DBytes (b "seed"))))
               [70%N])
         (started false)).
Proof.
  apply (register_data_always_reports
           (identity_unit false (root_target (DBytes (b "seed"))))
           (DBytes (b "FLAG{abc}")) true
           (exec (register_flag
                    (identity_unit false (root_target (DBytes (b "seed"))))
                    [70%N]) (started false))).
  reflexivity.
Defined.

(* ===================================================================== *)
(** ** Queueing targets *)
(* ===================================================================== *)

Lemma queue_returns (u : Unit) (m : Manager) :
  exists m', queue u m = Ok tt m' /\ targets m' = targets m
             /\ monitor m' = monitor m.
Proof.
  unfold queue, barrier_reset, put. unfold bind, get, modify.
  destruct (origin_completed u m); [now exists m|].
  simpl. destruct (barrier m) as [bar|] eqn:Eb; simpl; rewrite ?Eb; simpl.
  - eexists. split; [reflexivity|]. now split.
  - eexists. split; [reflexivity|]. now split.
Qed.

Lemma for_each_queue_returns (units : list Unit) :
  forall m, exists m', for_each units queue m = Ok tt m'
                       /\ targets m' = targets m /\ monitor m' = monitor m.
Proof.
  induction units as [|u units IH]; intros m; simpl.
  - now exists m.
  - unfold bind. destruct (queue_returns u m) as (m1 & -> & T1 & M1).
    destruct (IH m1) as (m2 & -> & T2 & M2). exists m2.
    split; [reflexivity|]. split; congruence.
Qed.

(** Past its guards, [queue_target] builds the target and returns it. *)
Lemma queue_target_builds (upstream : Data) (parent : option Unit)
  (m : Manager) :
  exists m',
    (t <- new_target upstream parent ;;
     units <- get (fun m => finder_match m t) ;;
     for_each units queue ;;; ret (Some t)) m
    = Ok (Some (target_for upstream parent m)) m'
    /\ targets m' = targets m ++ [target_for upstream parent m]
    /\ monitor m' = monitor m.
Proof.
  unfold new_target, bind, get, modify, ret.
  destruct parent as [p|]; simpl.
  - destruct (for_each_queue_returns
                (finder_match m (target_for upstream (Some p) m))
                (set_targets (targets m ++ [target_for upstream (Some p) m])
                   m)) as (m' & E & T & Mo).
    unfold target_for in E. rewrite E. exists m'. now split.
  - destruct (for_each_queue_returns
                (finder_match m (target_for upstream None m))
                (set_targets (targets m ++ [target_for upstream None m]) m))
      as (m' & E & T & Mo).
    unfold target_for in E. rewrite E. exists m'. now split.
Qed.

(** A byte string without a parent always becomes a target. *)
Lemma queue_target_root_bytes (bs : bytes) (m : Manager) :
  exists m',
    queue_target (DBytes bs) None m
    = Ok (Some (target_for (DBytes bs) None m)) m'
    /\ targets m' = targets m ++ [target_for (DBytes bs) None m].
Proof.
  destruct (queue_target_builds (DBytes bs) None m) as (m' & E & T & _).
  exists m'. split; [|exact T]. rewrite <- E. reflexivity.
Qed.

(** What [queue_target] does for a parent, case by case. *)
Lemma queue_target_parent (upstream : Data) (p : Unit) (m : Manager) :
  queue_target upstream (Some p) m
  = if negb (is_payload upstream) then Raised AttributeError m
    else if eq_empty_str (trimmed upstream) then Ok None m
    else if origin_completed p m then Ok None m
    else if (depth p + 1 >=? cfg_max_depth m)%Z then
      Ok None (set_monitor (monitor m ++ [on_depth_limit (target p) p]) m)
    else
      (t <- new_target upstream (Some p) ;;
       units <- get (fun m => finder_match m t) ;;
       for_each units queue ;;; ret (Some t)) m.
Proof.
  unfold queue_target, py_strip.
  destruct upstream as [bs|s|items|items]; try reflexivity.
  - unfold bind at 1. unfold ret at 1.
    cbn [is_payload negb eq_empty_str trimmed].
    unfold bind at 1. unfold bind at 1. unfold get at 1.
    destruct (origin_completed p m); [reflexivity|].
    unfold bind at 1. unfold get at 1.
    destruct (depth p + 1 >=? cfg_max_depth m)%Z; reflexivity.
  - unfold bind at 1. unfold ret at 1. cbn [is_payload negb trimmed].
    destruct (eq_empty_str (DStr (strip str_space s))); [reflexivity|].
    unfold bind at 1. unfold bind at 1. unfold get at 1.
    destruct (origin_completed p m); [reflexivity|].
    unfold bind at 1. unfold get at 1.
    destruct (depth p + 1 >=? cfg_max_depth m)%Z; reflexivity.
Qed.

(** What [queue_target] does without a parent. *)
Lemma queue_target_root (upstream : Data) (m : Manager) :
  queue_target upstream None m
  = if negb (is_payload upstream) then Raised AttributeError m
    else if eq_empty_str (trimmed upstream) then Ok None m
    else
      (t <- new_target upstream None ;;
       units <- get (fun m => finder_match m t) ;;
       for_each units queue ;;; ret (Some t)) m.
Proof.
  unfold queue_target, py_strip.
  destruct upstream as [bs|s|items|items]; try reflexivity.
  unfold bind at 1. unfold ret at 1. cbn [is_payload negb trimmed].
  destruct (eq_empty_str (DStr (strip str_space s))); reflexivity.
Qed.

(** At the depth limit, a parent whose origin is completed gets no
    [on_depth_limit]: the completed check comes first. *)
Lemma depth_limit_without_notice :
  (depth deep_unit + 1 >= cfg_max_depth
                            (exec (register_flag deep_unit [70%N])
                               (started false)))%Z
  /\ queue_target (DBytes (b "data")) (Some deep_unit)
       (exec (register_flag deep_unit [70%N]) (started false))
     = Ok None (exec (register_flag deep_unit [70%N]) (started false))
  /\ ~ In (on_depth_limit (target deep_unit) deep_unit)
         (monitor
            (exec (queue_target (DBytes (b "data")) (Some deep_unit))
               (exec (register_flag deep_unit [70%N]) (started false)))).
Proof.
  split; [vm_compute; discriminate|]. split; [vm_compute; reflexivity|].
  vm_compute. intros [H | []]. discriminate H.
Qed.

(** C5, as the code has it. With [max-depth >= 0], [queue_target]
    either builds no Target, or builds exactly one, returns it, and its
    depth is at most [max-depth]. When [parent.depth + 1 >= max-depth], no
    Target is built and nothing is enqueued; for a byte string or text
    payload the call returns none; and when moreover the payload is not
    blank and the parent's origin is not completed, the call emits
    [on_depth_limit] for the parent, and does nothing else. *)
Theorem queue_target_depth_limit (upstream : Data) (parent : option Unit)
  (m : Manager) :
  (0 <= cfg_max_depth m)%Z ->
  (targets (exec (queue_target upstream parent) m) = targets m
   \/ exists t m',
        queue_target upstream parent m = Ok (Some t) m'
        /\ targets m' = targets m ++ [t]
        /\ (tdepth t <= cfg_max_depth m)%Z)
  /\ (forall p, parent = Some p ->
        (depth p + 1 >= cfg_max_depth m)%Z ->
        targets (exec (queue_target upstream parent) m) = targets m
        /\ work (exec (queue_target upstream parent) m) = work m
        /\ (is_payload upstream = true ->
            exists m', queue_target upstream parent m = Ok None m')
        /\ (is_payload upstream = true -> is_blank upstream = false ->
            origin_completed p m = false ->
            queue_target upstream parent m
            = Ok None
                (set_monitor (monitor m ++ [on_depth_limit (target p) p])
                   m))).
Proof.
  intros Hmax. split.
  - unfold exec. destruct parent as [p|].
    + rewrite queue_target_parent.
      destruct (negb (is_payload upstream)); [now left|].
      destruct (eq_empty_str _); [now left|].
      destruct (origin_completed p m); [now left|].
      destruct (depth p + 1 >=? cfg_max_depth m)%Z eqn:Ed; [now left|].
      destruct (queue_target_builds upstream (Some p) m) as (m1 & E & T & _).
      right. exists (target_for upstream (Some p) m), m1.
      split; [exact E|]. split; [exact T|]. simpl. lia.
    + rewrite queue_target_root.
      destruct (negb (is_payload upstream)); [now left|].
      destruct (eq_empty_str _); [now left|].
      destruct (queue_target_builds upstream None m) as (m1 & E & T & _).
      right. exists (target_for upstream None m), m1.
      split; [exact E|]. split; [exact T|]. simpl. exact Hmax.
  - intros p -> Hd.
    assert (Hd' : (depth p + 1 >=? cfg_max_depth m)%Z = true)
      by (apply Z.geb_le; lia).
    clear Hd. rename Hd' into Hd. unfold exec.
    rewrite queue_target_parent.
    destruct upstream as [bs|s|items|items]; cbn [is_payload negb is_blank];
      try (split; [reflexivity|]; split; [reflexivity|];
           split; discriminate).
    + cbn [eq_empty_str trimmed]. rewrite Hd.
      destruct (origin_completed p m); simpl;
        (split; [reflexivity|]; split; [reflexivity|]; split; [eauto|]);
        [discriminate | reflexivity].
    + rewrite Hd. cbn [trimmed].
      destruct (strip str_space s) eqn:Es; cbn [eq_empty_str];
        destruct (origin_completed p m); simpl;
        (split; [reflexivity|]; split; [reflexivity|]; split; [eauto|]);
        try discriminate; reflexivity.
Qed.

Lemma queue_target_depth_limit_witness :
  queue_target (DBytes (b "data")) (Some deep_unit) (started false)
  = Ok None
      (set_monitor
         (monitor (started false)
          ++ [on_depth_limit (target deep_unit) deep_unit])
         (started false)).
Proof.
  apply (queue_target_depth_limit (DBytes (b "data")) (Some deep_unit)
           (started false));
    first [reflexivity | vm_compute; discriminate].
Defined.

(** C6. A byte string that is empty once trimmed, handed to
    [queue_target] without a parent, is not ignored: the comparison of a
    byte string with the text literal never holds, a Target is built for
    it and returned. *)
Theorem queue_target_blank_bytes (bs : bytes) (m : Manager) :
  strip bytes_space bs = [] ->
  exists t m',
    queue_target (DBytes bs) None m = Ok (Some t) m'
    /\ upstream t = DBytes bs
    /\ targets m' = targets m ++ [t].
Proof.
  intros _. destruct (queue_target_root_bytes bs m) as (m' & E & T).
  exists (target_for (DBytes bs) None m), m'.
  split; [exact E|]. split; [reflexivity | exact T].
Qed.

Lemma queue_target_blank_bytes_witness :
  exists t m',
    queue_target (DBytes (b "   ")) None (started false) = Ok (Some t) m'
    /\ upstream t = DBytes (b "   ")
    /\ targets m' = targets (started false) ++ [t].
Proof.
  apply (queue_target_blank_bytes (b "   ") (started false)).
  reflexivity.
Defined.

(** The blank byte string is queued for the units of the finder. *)
Example queue_target_blank_bytes_work :
  map action
    (work (exec (queue_target (DBytes (b "   ")) None) (started false)))
  = [init].
Proof. vm_compute. reflexivity. Qed.

(** Blank text is ignored, as the comment in [queue_target] intends. *)
Lemma queue_target_blank_text (s : text) (parent : option Unit)
  (m : Manager) :
  strip str_space s = [] -> queue_target (DStr s) parent m = Ok None m.
Proof.
  intros H. unfold queue_target, py_strip. unfold bind at 1. unfold ret at 1.
  rewrite H. reflexivity.
Qed.

(* ===================================================================== *)
(** ** The driver loop *)
(* ===================================================================== *)

(** C7. After [join] has returned, [queue_target] for a byte string
    without a parent still builds a Target and returns it: no exception
    is raised. *)
Theorem queue_target_after_join (timeout : option Z) (join_time : Z)
  (env : list (Wait * Z)) (m m' : Manager) (r : bool * list (Wait * Z))
  (bs : bytes) :
  join timeout join_time env m = Ok r m' ->
  exists t m'',
    queue_target (DBytes bs) None m' = Ok (Some t) m''
    /\ parent t = None
    /\ targets m'' = targets m' ++ [t].
Proof.
  intros _. destruct (queue_target_root_bytes bs m') as (m'' & E & T).
  exists (target_for (DBytes bs) None m'), m''.
  split; [exact E|]. split; [reflexivity | exact T].
Qed.

Lemma queue_target_after_join_witness :
  exists t m'',
    queue_target (DBytes (b "late")) None
      (exec (join None 0 [(Passed, 1%Z)]) (started false))
    = Ok (Some t) m''
    /\ parent t = None
    /\ targets m''
       = targets (exec (join None 0 [(Passed, 1%Z)]) (started false)) ++ [t].
Proof.
  apply (queue_target_after_join None 0 [(Passed, 1%Z)] (started false)
           (exec (join None 0 [(Passed, 1%Z)]) (started false)) (true, [])
           (b "late")).
  vm_compute. reflexivity.
Defined.

(** C3. The first interrupt of [join] leaves the wait loop at once: no
    abort item is put on the queue, the barrier is not reset, the waits
    that remain are not used, and [join] goes on to its end and returns
    true. *)
Theorem join_first_interrupt_breaks (timeout : option Z)
  (join_time now : Z) (env : list (Wait * Z)) (m : Manager)
  (bar : Barrier) :
  barrier m = Some bar ->
  join timeout join_time ((KeyboardInterrupt, now) :: env) m
  = Ok (true, env) (set_monitor (monitor m ++ [on_completion false]) m).
Proof.
  intros Hb. unfold join. cbn [join_loop]. unfold bind, get. rewrite Hb.
  reflexivity.
Qed.

Lemma join_first_interrupt_breaks_witness :
  join None 0 [(KeyboardInterrupt, 1%Z); (Passed, 2%Z)] (started false)
  = Ok (true, [(Passed, 2%Z)])
      (set_monitor (monitor (started false) ++ [on_completion false])
         (started false)).
Proof.
  apply (join_first_interrupt_breaks None 0 1 [(Passed, 2%Z)]
           (started false) {| parties := 3; resets := 0 |}).
  reflexivity.
Defined.

(** The branch that signals the workers and goes on waiting is there, for
    a loop that is not yet aborting. *)
Lemma join_loop_signals_when_not_aborting (now : Z) (env : list (Wait * Z))
  (m : Manager) (bar : Barrier) :
  barrier m = Some bar ->
  join_loop None false ((KeyboardInterrupt, now) :: env) m
  = (_signal_complete ;;; join_loop None true env) m.
Proof.
  intros Hb. cbn [join_loop]. unfold bind at 1. unfold get at 1.
  rewrite Hb. reflexivity.
Qed.

(* ===================================================================== *)
(** ** The worker loop *)
(* ===================================================================== *)

(** C8. When the next work item is for a unit whose [enumerate] raises,
    or whose generator raises on [next], the exception leaves [_thread]:
    the worker thread ends there, with the item taken off the queue and
    nothing told to the monitor. *)
Theorem thread_dies_when_enumerate_raises (fuel : nat) (env : list Wait)
  (m : Manager) (item : WorkItem) (rest : list WorkItem) (u : Unit)
  (e : Exn) :
  pq_get (work m) = Some (item, rest) ->
  item_unit item = Some u ->
  origin_completed u m = false ->
  (action item = init /\ enumerate u = EnumRaise e)
  \/ (action item = init
      /\ exists g, enumerate u = EnumGen g /\ fst (next g) = GenRaise e)
  \/ (action item = evaluate_
      /\ exists g, generator item = Some g /\ fst (next g) = GenRaise e) ->
  _thread (S fuel) env m = Raised e (set_work rest m).
Proof.
  intros Hq Hu Hc H. cbn [_thread]. unfold bind at 1.
  assert (Ht : thread_turn env m = Raised e (set_work rest m)).
  { unfold thread_turn. unfold bind at 1. unfold get at 1. rewrite Hq.
    unfold bind at 1. unfold modify at 1.
    assert (Hc' : origin_completed u (set_work rest m) = false) by exact Hc.
    destruct H as [[Ha He] | [[Ha (g & He & Hn)] | [Ha (g & Hg & Hn)]]];
      rewrite Ha, Hu; unfold bind at 1; unfold get at 1; rewrite Hc'.
    - rewrite He. reflexivity.
    - rewrite He. unfold bind at 1. unfold ret at 1.
      destruct (next g) as [st g']. simpl in Hn. subst st. reflexivity.
    - rewrite Hg. unfold bind at 1. unfold ret at 1.
      destruct (next g) as [st g']. simpl in Hn. subst st. reflexivity. }
  rewrite Ht. reflexivity.
Qed.

Lemma thread_dies_when_enumerate_raises_witness :
  _thread 5 [Passed]
    (exec (queue_target (DBytes (b "seed")) None)
       (exec start (new_manager flag_braces (fun t => [broken_unit t]))))
  = Raised (UnitError 1)
      (set_work []
         (exec (queue_target (DBytes (b "seed")) None)
            (exec start
               (new_manager flag_braces (fun t => [broken_unit t]))))).
Proof.
  apply (thread_dies_when_enumerate_raises 4 [Passed]
           (exec (queue_target (DBytes (b "seed")) None)
              (exec start
                 (new_manager flag_braces (fun t => [broken_unit t]))))
           {| priority := 50; action := init;
              item_unit := Some (broken_unit (root_target (DBytes (b "seed"))));
              generator := None |}
           [] (broken_unit (root_target (DBytes (b "seed"))))
           (UnitError 1)).
  - reflexivity.
  - reflexivity.
  - reflexivity.
  - left. split; reflexivity.
Defined.

Example thread_dies_when_generator_raises :
  _thread 5 [Passed]
    (exec (queue_target (DBytes (b "seed")) None)
       (exec start (new_manager flag_braces (fun t => [broken_gen_unit t]))))
  = Raised (UnitError 2)
      (set_work []
         (exec (queue_target (DBytes (b "seed")) None)
            (exec start
               (new_manager flag_braces (fun t => [broken_gen_unit t]))))).
Proof. vm_compute. reflexivity. Qed.

(** An exception of [evaluate] is told to the monitor, and the worker
    goes on. *)
Example thread_survives_evaluate :
  _thread 5 [Passed]
    (exec (queue_target (DBytes (b "seed")) None)
       (exec start
          (new_manager flag_braces
             (fun t =>
                [{| PRIORITY := 50; STRICT_FLAGS := false; target := tid t;
                    origin := torigin t; depth := tdepth t;
                    enumerate := EnumGen (gen_of_list [Yield (upstream t)]);
                    evaluate := fun _ => [SRaise (UnitError 3)] |}]))))
  = Ok tt
      (exec (_thread 5 [Passed])
         (exec (queue_target (DBytes (b "seed")) None)
            (exec start
               (new_manager flag_braces
                  (fun t =>
                     [{| PRIORITY := 50; STRICT_FLAGS := false;
                         target := tid t; origin := torigin t;
                         depth := tdepth t;
                         enumerate :=
                           EnumGen (gen_of_list [Yield (upstream t)]);
                         evaluate := fun _ => [SRaise (UnitError 3)] |}]))))).
Proof. vm_compute. reflexivity. Qed.

(* ===================================================================== *)
(** ** The configuration is read, never written *)
(* ===================================================================== *)

Lemma same_config_refl (m : Manager) : same_config m m.
Proof. now split. Qed.

Lemma same_config_trans (m1 m2 m3 : Manager) :
  same_config m1 m2 -> same_config m2 m3 -> same_config m1 m3.
Proof. intros [] []. split; congruence. Qed.

Lemma same_config_set_work (q : list WorkItem) (m : Manager) :
  same_config m (set_work q m).
Proof. now split. Qed.

Lemma same_config_set_barrier (x : option Barrier) (m : Manager) :
  same_config m (set_barrier x m).
Proof. now split. Qed.

Lemma same_config_set_monitor (l : list Event) (m : Manager) :
  same_config m (set_monitor l m).
Proof. now split. Qed.

Lemma same_config_set_targets (l : list Target) (m : Manager) :
  same_config m (set_targets l m).
Proof. now split. Qed.

Lemma same_config_set_completed (s : gset target_id) (m : Manager) :
  same_config m (set_completed s m).
Proof. now split. Qed.

Lemma same_config_set_outdir_exists (o : bool) (m : Manager) :
  same_config m (set_outdir_exists o m).
Proof. now split. Qed.

Lemma same_config_set_flag_pattern (p : option Pattern) (m : Manager) :
  same_config m (set_flag_pattern p m).
Proof. now split. Qed.

Lemma same_config_set_threads (n : nat) (m : Manager) :
  same_config m (set_threads n m).
Proof. now split. Qed.

#[local] Hint Resolve same_config_refl same_config_set_work
  same_config_set_barrier same_config_set_monitor same_config_set_targets
  same_config_set_completed same_config_set_outdir_exists
  same_config_set_flag_pattern same_config_set_threads : preserves.

Ltac preorder ::=
  first [ exact extends_refl | exact extends_trans | exact same_queue_refl
        | exact same_queue_trans | exact same_config_refl
        | exact same_config_trans | assumption ].

Ltac keep_config :=
  repeat first
    [ progress step_through
    | match goal with
      | |- same_config _ _ => solve [auto with preserves]
      | |- preserves same_config barrier_reset => unfold barrier_reset
      | |- preserves same_config (register_flag _ _) => unfold register_flag
      | |- preserves same_config (queue _) => unfold queue
      | |- preserves same_config (requeue _) => unfold requeue
      | |- preserves same_config (py_strip _) => unfold py_strip
      | |- preserves same_config (new_target _ _) => unfold new_target
      | |- preserves same_config _signal_complete => unfold _signal_complete
      end ].

Lemma config_find_flag_rec (fuel : nat) :
  forall u data, preserves same_config (find_flag_rec fuel u data).
Proof.
  induction fuel as [|fuel IH]; intros u data; simpl; [keep_config|].
  destruct data; keep_config; apply IH.
Qed.

Lemma config_find_flag (u : Unit) (data : Data) :
  preserves same_config (find_flag u data).
Proof. apply config_find_flag_rec. Qed.

Lemma config_queue_target (upstream : Data) (parent : option Unit) :
  preserves same_config (queue_target upstream parent).
Proof. unfold queue_target. keep_config. Qed.

#[local] Hint Resolve config_find_flag config_queue_target : preserves.

Lemma config_register_artifact (u : Unit) (path : Data) (recurse : bool) :
  preserves same_config (register_artifact u path recurse).
Proof. unfold register_artifact. keep_config. Qed.

Lemma config_register_data (u : Unit) (data : Data) (recurse : bool) :
  preserves same_config (register_data u data recurse).
Proof. unfold register_data. keep_config. Qed.

#[local] Hint Resolve config_register_artifact config_register_data
  : preserves.

Lemma config_start : preserves same_config start.
Proof. unfold start. keep_config. Qed.

Lemma config_join_loop (stop_time : option Z) (env : list (Wait * Z)) :
  forall aborting,
    preserves same_config (join_loop stop_time aborting env).
Proof.
  induction env as [|[w now] env IH]; intros aborting; simpl; keep_config.
Qed.

Lemma config_join (timeout : option Z) (join_time : Z)
  (env : list (Wait * Z)) :
  preserves same_config (join timeout join_time env).
Proof. unfold join. keep_config. apply config_join_loop. Qed.

Lemma config_run_script (u : Unit) (script : list Stmt) :
  preserves same_config (run_script u script).
Proof. induction script as [|s script IH]; simpl; keep_config. Qed.

#[local] Hint Resolve config_run_script : preserves.

Lemma config_thread_turn (env : list Wait) :
  preserves same_config (thread_turn env).
Proof. unfold thread_turn, next. keep_config. Qed.

Lemma config_thread (fuel : nat) :
  forall env, preserves same_config (_thread fuel env).
Proof.
  induction fuel as [|fuel IH]; intros env; simpl; keep_config.
  apply config_thread_turn.
Qed.

Lemma same_config_run_call (c : Call) (m : Manager) :
  same_config m (run_call c m).
Proof.
  destruct c; simpl; unfold exec.
  - apply config_register_data.
  - apply config_register_artifact.
  - assert (H : preserves same_config (register_flag u flag)) by keep_config.
    apply H.
  - apply config_find_flag.
  - apply config_queue_target.
  - assert (H : preserves same_config (queue u)) by keep_config. apply H.
  - assert (H : preserves same_config (requeue item)) by keep_config.
    apply H.
  - apply config_start.
  - apply config_join.
  - assert (H : preserves same_config _signal_complete) by keep_config.
    apply H.
  - apply config_thread.
Qed.

Lemma same_config_run_calls (cs : list Call) :
  forall m, same_config m (run_calls cs m).
Proof.
  induction cs as [|c cs IH]; intros m; simpl; [apply same_config_refl|].
  eapply same_config_trans; [apply same_config_run_call | apply IH].
Qed.

(* ===================================================================== *)
(** ** More on [find_flag] and the registrations *)
(* ===================================================================== *)

(** X1. [find_flag] ends: every tags-removed form is strictly shorter than
    the byte string it comes from, so the recursion is at most as deep as
    [data_fuel] says; with that much fuel or more the call returns or
    raises, and always with the same result. *)
Theorem find_flag_terminates (u : Unit) (data : Data) (fuel : nat)
  (m : Manager) :
  (data_fuel data <= fuel)%nat ->
  finished (find_flag_rec fuel u data m)
  /\ find_flag_rec fuel u data m = find_flag u data m.
Proof.
  intros H. split.
  - now apply find_flag_rec_finished.
  - apply find_flag_rec_fuel; [assumption | lia].
Qed.

Lemma find_flag_terminates_witness :
  finished
    (find_flag_rec 100 (identity_unit true (root_target (DBytes (b "seed"))))
       (DList [DBytes (b "<x>FLAG{abc}</x>"); DStr [60; 97; 62; 98]%N])
       (started true))
  /\ find_flag_rec 100
       (identity_unit true (root_target (DBytes (b "seed"))))
       (DList [DBytes (b "<x>FLAG{abc}</x>"); DStr [60; 97; 62; 98]%N])
       (started true)
     = find_flag (identity_unit true (root_target (DBytes (b "seed"))))
         (DList [DBytes (b "<x>FLAG{abc}</x>"); DStr [60; 97; 62; 98]%N])
         (started true).
Proof.
  apply (find_flag_terminates
           (identity_unit true (root_target (DBytes (b "seed"))))
           (DList [DBytes (b "<x>FLAG{abc}</x>"); DStr [60; 97; 62; 98]%N])
           100 (started true)).
  vm_compute. lia.
Defined.

Lemma find_flag_rec_no_pattern (u : Unit) (m : Manager) :
  flag_pattern m = None ->
  forall fuel bs, (length bs <= fuel)%nat ->
    find_flag_rec (S fuel) u (DBytes bs) m = Raised AttributeError m.
Proof.
  intros Hp. induction fuel as [|fuel IH]; intros bs Hl;
    rewrite find_flag_rec_bytes;
    destruct (bytes_eqb (no_xml bs) bs) eqn:E; cbn [negb].
  - unfold search_and_register, search. unfold bind, ret, get.
    now rewrite Hp.
  - apply data_fuel_no_xml in E. simpl in E. lia.
  - unfold search_and_register, search. unfold bind, ret, get.
    now rewrite Hp.
  - apply data_fuel_no_xml in E. simpl in E. unfold bind.
    rewrite IH by lia. reflexivity.
Qed.

(** X2. Before [start] there is no compiled pattern: [register_data] for a
    byte string, or for text that encodes to one, tells the monitor
    [on_data] and then raises [AttributeError] out of the flag search;
    nothing is registered or queued. *)
Theorem register_data_before_start (u : Unit) (data : Data) (bs : bytes)
  (recurse : bool) (m : Manager) :
  flag_pattern m = None ->
  data = DBytes bs \/ (exists s, data = DStr s /\ utf8_encode s = Some bs) ->
  register_data u data recurse m
  = Raised AttributeError (set_monitor (monitor m ++ [on_data u data]) m).
Proof.
  intros Hp Hd. unfold register_data, emit, modify. unfold bind at 1 2.
  assert (Hf : find_flag u data (set_monitor (monitor m ++ [on_data u data]) m)
               = Raised AttributeError
                   (set_monitor (monitor m ++ [on_data u data]) m)).
  { destruct Hd as [-> | (s & -> & He)]; unfold find_flag.
    - cbn [data_fuel data_bytes_len].
      now apply find_flag_rec_no_pattern.
    - cbn [data_fuel data_bytes_len]. rewrite He, find_flag_rec_str, He.
      now apply find_flag_rec_no_pattern. }
  now rewrite Hf.
Qed.

Lemma register_data_before_start_witness :
  register_data (identity_unit false (root_target (DBytes (b "seed"))))
    (DBytes (b "FLAG{abc}")) true
    (new_manager flag_braces (fun t => [identity_unit false t]))
  = Raised AttributeError
      (set_monitor
         (monitor (new_manager flag_braces (fun t => [identity_unit false t]))
          ++ [on_data (identity_unit false (root_target (DBytes (b "seed"))))
                (DBytes (b "FLAG{abc}"))])
         (new_manager flag_braces (fun t => [identity_unit false t]))).
Proof.
  apply (register_data_before_start
           (identity_unit false (root_target (DBytes (b "seed"))))
           (DBytes (b "FLAG{abc}")) (b "FLAG{abc}") true
           (new_manager flag_braces (fun t => [identity_unit false t]))).
  - reflexivity.
  - left. reflexivity.
Defined.

(** X3. When the manager's [recurse] option is off, or the call says
    [recurse=False], [register_data] is the monitor call and the flag
    search and nothing more, and [register_artifact] is the monitor call
    alone: no target is built and the queue is not touched. *)
Theorem register_without_recursion (u : Unit) (data : Data) (recurse : bool)
  (m : Manager) :
  cfg_recurse m && recurse = false ->
  register_data u data recurse m
  = (emit (on_data u data) ;;; find_flag u data) m
  /\ same_queue m (exec (register_data u data recurse) m)
  /\ register_artifact u data recurse m
     = Ok tt (set_monitor (monitor m ++ [on_artifact u data]) m).
Proof.
  intros Hr.
  assert (H1 : register_data u data recurse m
               = (emit (on_data u data) ;;; find_flag u data) m).
  { unfold register_data, bind, emit, modify.
    pose proof (config_find_flag u data
                  (set_monitor (monitor m ++ [on_data u data]) m)) as Hg.
    destruct (find_flag u data _) as [[] m3|e m3|m3]; try reflexivity.
    destruct Hg as [Hg _ _ _ _ _]. simpl in Hg. unfold get. rewrite Hg.
    destruct (cfg_recurse m), recurse, (origin_completed u m3);
      try discriminate; reflexivity. }
  split; [exact H1|]. split.
  - unfold exec. rewrite H1.
    assert (Hq : quiet (emit (on_data u data) ;;; find_flag u data))
      by (step_through; apply quiet_find_flag).
    apply Hq.
  - unfold register_artifact, bind, emit, modify, get. simpl.
    now rewrite Hr.
Qed.

Lemma register_without_recursion_witness :
  register_artifact (identity_unit false (root_target (DBytes (b "seed"))))
    (DStr [47; 116; 109; 112]%N) false (started false)
  = Ok tt
      (set_monitor
         (monitor (started false)
          ++ [on_artifact
                (identity_unit false (root_target (DBytes (b "seed"))))
                (DStr [47; 116; 109; 112]%N)])
         (started false)).
Proof.
  apply (register_without_recursion
           (identity_unit false (root_target (DBytes (b "seed"))))
           (DStr [47; 116; 109; 112]%N) false (started false)).
  reflexivity.
Defined.

(** X4. [find_flag] takes lists and tuples, [queue_target] does not: with
    recursion on and the origin still not completed after the flag
    search, [register_data] for a list or a tuple raises
    [AttributeError], from [upstream.strip()], after the search. *)
Theorem register_data_list_raises (u : Unit) (data : Data)
  (m m2 : Manager) :
  is_payload data = false ->
  cfg_recurse m = true ->
  find_flag u data (exec (emit (on_data u data)) m) = Ok tt m2 ->
  origin_completed u m2 = false ->
  register_data u data true m = Raised AttributeError m2.
Proof.
  intros Hd Hr Hf Hc. unfold register_data. unfold bind at 1 2.
  unfold emit at 1, modify at 1. unfold exec, emit, modify in Hf.
  simpl in Hf. rewrite Hf.
  pose proof (config_find_flag u data
                (set_monitor (monitor m ++ [on_data u data]) m)) as Hg.
  rewrite Hf in Hg. destruct Hg as [Hg _ _ _ _ _]. simpl in Hg.
  unfold bind at 1, get at 1. unfold bind at 1, get at 1.
  rewrite Hg, Hr, Hc. cbn [andb negb]. unfold bind at 1.
  destruct data as [bs|s|items|items]; try discriminate; reflexivity.
Qed.

Lemma register_data_list_raises_witness :
  register_data (identity_unit false (root_target (DBytes (b "seed"))))
    (DList [DBytes (b "one"); DBytes (b "two")]) true (started false)
  = Raised AttributeError
      (exec (emit (on_data
                     (identity_unit false (root_target (DBytes (b "seed"))))
                     (DList [DBytes (b "one"); DBytes (b "two")])))
         (started false)).
Proof.
  apply (register_data_list_raises
           (identity_unit false (root_target (DBytes (b "seed"))))
           (DList [DBytes (b "one"); DBytes (b "two")]) (started false));
    reflexivity.
Defined.

(** X5. Once [register_flag] has been called for a unit of an origin,
    then whatever is called on the manager afterwards, [queue] for a unit
    of that origin, [requeue] for an item of such a unit and
    [queue_target] with such a unit as parent return without changing the
    manager at all. *)
Theorem completed_origin_is_not_queued (u0 u : Unit) (flag : text)
  (cs : list Call) (item : WorkItem) (upstream : Data) (m : Manager) :
  origin u = origin u0 ->
  item_unit item = Some u ->
  is_payload upstream = true ->
  queue u (run_calls cs (exec (register_flag u0 flag) m))
  = Ok tt (run_calls cs (exec (register_flag u0 flag) m))
  /\ requeue item (run_calls cs (exec (register_flag u0 flag) m))
     = Ok tt (run_calls cs (exec (register_flag u0 flag) m))
  /\ queue_target upstream (Some u)
       (run_calls cs (exec (register_flag u0 flag) m))
     = Ok None (run_calls cs (exec (register_flag u0 flag) m)).
Proof.
  intros Ho Hi Hp.
  set (m1 := run_calls cs (exec (register_flag u0 flag) m)).
  assert (Hc : origin_completed u m1 = true).
  { apply origin_completed_extends with (exec (register_flag u0 flag) m).
    - apply extends_run_calls.
    - apply origin_completed_true. rewrite Ho. simpl. set_solver. }
  split; [|split].
  - unfold queue, bind, get. now rewrite Hc.
  - unfold requeue. rewrite Hi. unfold bind, get. now rewrite Hc.
  - rewrite queue_target_parent, Hp, Hc. cbn [negb].
    now destruct (eq_empty_str (trimmed upstream)).
Qed.

Lemma completed_origin_is_not_queued_witness :
  queue (identity_unit false (root_target (DBytes (b "seed"))))
    (run_calls [call_queue_target (DBytes (b "other")) None]
       (exec (register_flag
                (identity_unit true (root_target (DBytes (b "seed"))))
                [70%N]) (started false)))
  = Ok tt
      (run_calls [call_queue_target (DBytes (b "other")) None]
         (exec (register_flag
                  (identity_unit true (root_target (DBytes (b "seed"))))
                  [70%N]) (started false))).
Proof.
  refine (proj1 (completed_origin_is_not_queued
                   (identity_unit true (root_target (DBytes (b "seed"))))
                   (identity_unit false (root_target (DBytes (b "seed"))))
                   [70%N] [call_queue_target (DBytes (b "other")) None]
                   (init_item
                      (identity_unit false (root_target (DBytes (b "seed")))))
                   (DBytes (b "data")) (started false) _ _ _));
    reflexivity.
Defined.

(* ===================================================================== *)
(** ** [start] *)
(* ===================================================================== *)

Lemma start_outdir_exists (m : Manager) :
  outdir_exists m = true -> start m = Raised FileExistsError m.
Proof. intros H. unfold start, bind, get. now rewrite H. Qed.

Lemma outdir_exists_after_start (m : Manager) :
  outdir_exists (exec start m) = true.
Proof.
  unfold exec, start, bind, get, modify.
  destruct (outdir_exists m) eqn:E; simpl; [exact E|].
  destruct (cfg_flag_format m); simpl; [|reflexivity].
  destruct (finder_validate m); reflexivity.
Qed.

(** X6. [start] works once at most. It creates the results directory
    before it validates the configuration; so after any call of [start],
    also one that failed the validation, another [start] raises
    [FileExistsError] and changes nothing. A [start] that found the
    directory there has changed nothing either. *)
Theorem start_only_once (m : Manager) :
  start (exec start m) = Raised FileExistsError (exec start m)
  /\ (outdir_exists m = true -> start m = Raised FileExistsError m)
  /\ (outdir_exists m = false -> cfg_flag_format m = None ->
      start m = Raised RuntimeError (set_outdir_exists true m)).
Proof.
  split; [|split].
  - apply start_outdir_exists, outdir_exists_after_start.
  - apply start_outdir_exists.
  - intros Ho Hf. unfold start, bind, get, modify. rewrite Ho. simpl.
    now rewrite Hf.
Qed.

Lemma start_only_once_witness :
  start (set_outdir_exists true (started false))
  = Raised FileExistsError (set_outdir_exists true (started false)).
Proof.
  apply (start_only_once (set_outdir_exists true (started false))).
  reflexivity.
Defined.

(* ===================================================================== *)
(** ** More on [join] *)
(* ===================================================================== *)

Lemma for_each_put (item : WorkItem) (n : nat) :
  forall a m,
    for_each (seq a n) (fun _ => put item) m
    = Ok tt (set_work (work m ++ repeat item n) m).
Proof.
  induction n as [|n IH]; intros a m; simpl.
  - unfold ret. rewrite app_nil_r. now destruct m.
  - unfold bind. unfold put at 1, modify at 1. rewrite IH. simpl.
    now rewrite <- app_assoc.
Qed.

Lemma signal_complete_signalled (m : Manager) (bar : Barrier) :
  barrier m = Some bar -> _signal_complete m = Ok tt (signalled m).
Proof.
  intros Hb. unfold _signal_complete, barrier_reset, signalled.
  unfold bind at 1, get at 1. unfold bind at 1. rewrite for_each_put.
  unfold bind, get, modify. simpl. now rewrite Hb.
Qed.

(** The wait loop of [join], entered with [aborting] set: it raises
    nothing, and when it is left the manager is as it was, after an
    interrupt, or signalled once. *)
Lemma join_loop_aborting (stop_time : option Z) (m : Manager)
  (bar : Barrier) :
  barrier m = Some bar ->
  forall env,
    join_loop stop_time true env m = Unfinished m
    \/ (exists rest,
          join_loop stop_time true env m = Ok (false, rest) m
          /\ In KeyboardInterrupt (map fst env))
    \/ (exists rest,
          join_loop stop_time true env m = Ok (false, rest) (signalled m)
          /\ In Passed (map fst env))
    \/ (exists rest st w now,
          join_loop stop_time true env m = Ok (true, rest) (signalled m)
          /\ stop_time = Some st /\ In (w, now) env /\ (now >= st)%Z).
Proof.
  intros Hb. induction env as [|[w now] env IH]; [now left|].
  cbn [join_loop]. unfold bind, get. rewrite Hb.
  cbv beta iota zeta. destruct w.
  - right. right. left. exists env. unfold bind.
    rewrite (signal_complete_signalled m bar Hb).
    split; [reflexivity | now left].
  - destruct stop_time as [st|].
    + destruct (now >=? st)%Z eqn:E.
      * right. right. right. exists env, st, BrokenBarrierError, now.
        unfold bind. rewrite (signal_complete_signalled m bar Hb).
        split; [reflexivity|]. split; [reflexivity|].
        split; [now left | apply Z.geb_le in E; lia].
      * destruct IH as [H | [(rest & H & Hi) | [(rest & H & Hi)
                       | (rest & st' & w' & now' & H & Hs & Hi & Hn)]]].
        -- now left.
        -- right. left. exists rest. split; [exact H | now right].
        -- right. right. left. exists rest. split; [exact H | now right].
        -- right. right. right. exists rest, st', w', now'.
           split; [exact H|]. split; [exact Hs|]. split; [now right | exact Hn].
    + destruct IH as [H | [(rest & H & Hi) | [(rest & H & Hi)
                     | (rest & st' & w' & now' & H & Hs & Hi & Hn)]]].
      * now left.
      * right. left. exists rest. split; [exact H | now right].
      * right. right. left. exists rest. split; [exact H | now right].
      * discriminate Hs.
  - right. left. exists env. split; [reflexivity | now left].
Qed.

(** X7. When [join] returns, on a started manager, the monitor has been
    told [on_completion] once, last, with the negation of what [join]
    returns. Without a timeout [join] returns true. It returns false only
    with a timeout, after a wait that ended at or past the deadline
    [join_time + timeout]. The targets and the completed origins are as
    before. *)
Theorem join_reports_completion (timeout : option Z) (join_time : Z)
  (env rest : list (Wait * Z)) (ok : bool) (m m' : Manager)
  (bar : Barrier) :
  barrier m = Some bar ->
  join timeout join_time env m = Ok (ok, rest) m' ->
  monitor m' = monitor m ++ [on_completion (negb ok)]
  /\ (timeout = None -> ok = true)
  /\ (ok = false ->
      exists t w now,
        timeout = Some t /\ In (w, now) env /\ (now >= join_time + t)%Z)
  /\ targets m' = targets m
  /\ completed m' = completed m.
Proof.
  intros Hb H. unfold join in H. unfold bind at 1 in H.
  destruct (join_loop_aborting
              (option_map (fun t => (join_time + t)%Z) timeout) m bar Hb env)
    as [E | [(r & E & Hi) | [(r & E & Hi)
       | (r & st & w & now & E & Hs & Hi & Hn)]]];
    rewrite E in H; try discriminate H;
    unfold bind, emit, modify, ret in H; simpl in H;
    injection H as <- <- <-; simpl.
  - repeat split; try reflexivity. discriminate.
  - repeat split; try reflexivity. discriminate.
  - split; [reflexivity|]. split.
    + intros ->. discriminate Hs.
    + split; [|now split]. intros _.
      destruct timeout as [t|]; [|discriminate Hs].
      injection Hs as <-. exists t, w, now. now split.
Qed.

Lemma join_reports_completion_witness :
  monitor
    (exec (join (Some 5%Z) 10
             [(BrokenBarrierError, 12%Z); (BrokenBarrierError, 15%Z)])
       (started false))
  = monitor (started false) ++ [on_completion (negb false)].
Proof.
  refine (proj1 (join_reports_completion (Some 5%Z) 10
                   [(BrokenBarrierError, 12%Z); (BrokenBarrierError, 15%Z)]
                   [] false (started false) _
                   {| parties := 3; resets := 0 |} _ _));
    vm_compute; reflexivity.
Defined.

(** X8. When [join] returns, on a started manager, it has signalled the
    workers exactly once: an abort item for each thread is at the end of
    the work queue and the barrier was reset once. The one exception is
    the interrupt, after which it has signalled nothing at all. *)
Theorem join_signals_once (timeout : option Z) (join_time : Z)
  (env rest : list (Wait * Z)) (ok : bool) (m m' : Manager)
  (bar : Barrier) :
  barrier m = Some bar ->
  join timeout join_time env m = Ok (ok, rest) m' ->
  (work m' = work m ++ repeat abort_item (threads m)
   /\ barrier m'
      = Some {| parties := parties bar; resets := S (resets bar) |})
  \/ (work m' = work m /\ barrier m' = barrier m /\ ok = true
      /\ In KeyboardInterrupt (map fst env)).
Proof.
  intros Hb H. unfold join in H. unfold bind at 1 in H.
  destruct (join_loop_aborting
              (option_map (fun t => (join_time + t)%Z) timeout) m bar Hb env)
    as [E | [(r & E & Hi) | [(r & E & Hi)
       | (r & st & w & now & E & Hs & Hi & Hn)]]];
    rewrite E in H; try discriminate H;
    unfold bind, emit, modify, ret in H; simpl in H;
    injection H as <- <- <-; simpl.
  - right. now rewrite Hb.
  - left. now rewrite Hb.
  - left. now rewrite Hb.
Qed.

Lemma join_signals_once_witness :
  work (exec (join None 0 [(BrokenBarrierError, 1%Z); (Passed, 2%Z)])
          (started false))
  = work (started false) ++ repeat abort_item (threads (started false))
  /\ barrier (exec (join None 0 [(BrokenBarrierError, 1%Z); (Passed, 2%Z)])
                (started false))
     = Some {| parties := 3; resets := 1 |}.
Proof.
  assert (H := join_signals_once None 0
                 [(BrokenBarrierError, 1%Z); (Passed, 2%Z)] [] true
                 (started false)
                 (exec (join None 0
                          [(BrokenBarrierError, 1%Z); (Passed, 2%Z)])
                    (started false))
                 {| parties := 3; resets := 0 |}).
  destruct H as [H | (H & _)].
  - vm_compute. reflexivity.
  - vm_compute. reflexivity.
  - exact H.
  - vm_compute in H. discriminate H.
Defined.

(* ===================================================================== *)
(** ** What [queue_target] puts on the queue *)
(* ===================================================================== *)

Lemma barrier_after_0 (bar : option Barrier) : barrier_after 0 bar = bar.
Proof. now destruct bar as [[]|]. Qed.

Lemma barrier_after_add (i j : nat) (bar : option Barrier) :
  barrier_after j (barrier_after i bar) = barrier_after (i + j) bar.
Proof. destruct bar as [[p r]|]; simpl; [|reflexivity]. do 2 f_equal. lia. Qed.

Lemma enqueued_nil (m : Manager) : enqueued [] m = m.
Proof.
  unfold enqueued. simpl. rewrite barrier_after_0, app_nil_r. now destruct m.
Qed.

Lemma enqueued_cons (u : Unit) (units : list Unit) (m : Manager) :
  enqueued units (enqueued [u] m) = enqueued (u :: units) m.
Proof.
  unfold enqueued.
  assert (E : queued_units units
                (set_barrier
                   (barrier_after (length (queued_units [u] m)) (barrier m))
                   (set_work (work m ++ map init_item (queued_units [u] m))
                      m))
              = queued_units units m) by reflexivity.
  rewrite E. clear E.
  assert (E : queued_units (u :: units) m
              = queued_units [u] m ++ queued_units units m)
    by apply (List.filter_app _ [u] units).
  rewrite E. simpl.
  rewrite barrier_after_add, length_app, map_app, app_assoc. reflexivity.
Qed.

Lemma queue_enqueued (u : Unit) (m : Manager) :
  queue u m = Ok tt (enqueued [u] m).
Proof.
  assert (E : queued_units [u] m = if origin_completed u m then [] else [u]).
  { unfold queued_units. cbv [List.filter].
    now destruct (origin_completed u m). }
  unfold queue, enqueued, barrier_reset, put. rewrite E.
  unfold bind, get, modify.
  destruct (origin_completed u m); cbn [negb length map].
  - rewrite barrier_after_0, app_nil_r. now destruct m.
  - destruct m as [? ? ? ? ? ? ? ? bar ? ? ? ? ?]. now destruct bar.
Qed.

Lemma for_each_queue_enqueued (units : list Unit) :
  forall m, for_each units queue m = Ok tt (enqueued units m).
Proof.
  induction units as [|u units IH]; intros m; simpl.
  - now rewrite enqueued_nil.
  - unfold bind. rewrite queue_enqueued, IH, enqueued_cons. reflexivity.
Qed.

(** Past its guards, [queue_target] builds the target and queues the
    units the finder matches. *)
Lemma queue_target_builds_enqueued (upstream : Data) (parent : option Unit)
  (m : Manager) :
  (t <- new_target upstream parent ;;
   units <- get (fun m => finder_match m t) ;;
   for_each units queue ;;; ret (Some t)) m
  = Ok (Some (target_for upstream parent m))
      (enqueued (finder_match m (target_for upstream parent m))
         (set_targets (targets m ++ [target_for upstream parent m]) m)).
Proof.
  unfold new_target, bind, get, modify, ret.
  destruct parent as [p|]; simpl; unfold target_for;
    rewrite for_each_queue_enqueued; reflexivity.
Qed.

(** X9. Past its guards (a payload that is a byte string, or text that
    is not blank, and a parent, if any, whose origin is not completed and
    whose depth leaves room), [queue_target] returns the new target, and
    has put on the queue exactly one init item for each unit the finder
    matches whose origin is not completed, in the finder's order and with
    the unit's priority, and reset the barrier once for each; the monitor
    is told nothing. *)
Theorem queue_target_enqueues (upstream : Data) (parent : option Unit)
  (m : Manager) :
  is_payload upstream = true ->
  eq_empty_str (trimmed upstream) = false ->
  parent_allows parent m = true ->
  queue_target upstream parent m
  = Ok (Some (target_for upstream parent m))
       (enqueued (finder_match m (target_for upstream parent m))
          (set_targets (targets m ++ [target_for upstream parent m]) m)).
Proof.
  intros Hp He Ha.
  pose proof (queue_target_builds_enqueued upstream parent m) as Hb.
  destruct parent as [p|].
  - rewrite queue_target_parent, Hp, He. simpl in Ha.
    apply andb_prop in Ha. destruct Ha as [Hc Hd].
    apply negb_true_iff in Hc. rewrite Hc.
    rewrite Z.geb_leb, Z.leb_antisym, Hd. exact Hb.
  - rewrite queue_target_root, Hp, He. exact Hb.
Qed.

Lemma queue_target_enqueues_witness :
  work
    (exec (queue_target (DBytes (b "seed"))
             (Some (identity_unit false (root_target (DBytes (b "root"))))))
       (started false))
  = [init_item
       (identity_unit false
          {| tid := 0; upstream := DBytes (b "seed");
             parent :=
               Some (identity_unit false (root_target (DBytes (b "root"))));
             tdepth := 1; torigin := 0 |})].
Proof.
  unfold exec.
  rewrite (queue_target_enqueues (DBytes (b "seed"))
             (Some (identity_unit false (root_target (DBytes (b "root")))))
             (started false)).
  - vm_compute. reflexivity.
  - reflexivity.
  - reflexivity.
  - vm_compute. reflexivity.
Defined.

(* ===================================================================== *)
(** ** The worker loop *)
(* ===================================================================== *)

Lemma pq_get_none (q : list WorkItem) : pq_get q = None -> q = [].
Proof.
  destruct q as [|x q]; [reflexivity|]. simpl.
  destruct (pq_get q) as [[y rest]|]; [|discriminate].
  destruct (priority x <=? priority y)%Z; discriminate.
Qed.

(** [get] takes one item out of the queue, and no item left has a
    smaller priority. *)
Lemma pq_get_split (q : list WorkItem) :
  forall y rest,
    pq_get q = Some (y, rest) ->
    exists q1 q2,
      q = q1 ++ y :: q2 /\ rest = q1 ++ q2
      /\ Forall (fun x => (priority y <= priority x)%Z) q.
Proof.
  induction q as [|x q IH]; intros y rest H; [discriminate|].
  simpl in H. destruct (pq_get q) as [[y' r']|] eqn:E.
  - destruct (IH y' r' eq_refl) as (q1 & q2 & -> & -> & Hle).
    destruct (priority x <=? priority y')%Z eqn:Hp; injection H as <- <-.
    + exists [], (q1 ++ y' :: q2). split; [reflexivity|].
      split; [reflexivity|]. apply Z.leb_le in Hp. constructor; [lia|].
      eapply List.Forall_impl; [|exact Hle]. simpl. intros a Ha. lia.
    + exists (x :: q1), q2. split; [reflexivity|]. split; [reflexivity|].
      apply Z.leb_gt in Hp. constructor; [lia | exact Hle].
  - apply pq_get_none in E. subst q. injection H as <- <-.
    exists [], []. split; [reflexivity|]. split; [reflexivity|].
    constructor; [lia | constructor].
Qed.

Lemma pq_get_repeat (a : WorkItem) (n : nat) :
  pq_get (repeat a (S n)) = Some (a, repeat a n).
Proof.
  induction n as [|n IH]; [reflexivity|].
  change (repeat a (S (S n))) with (a :: repeat a (S n)).
  cbn [pq_get]. rewrite IH. now rewrite Z.leb_refl.
Qed.

(** Items of the least priority at the end of the queue are served before
    everything of greater priority. *)
Lemma pq_get_least_last (a : WorkItem) (n : nat) (q : list WorkItem) :
  Forall (fun x => (priority a < priority x)%Z) q ->
  pq_get (q ++ repeat a (S n)) = Some (a, q ++ repeat a n).
Proof.
  induction 1 as [|x q Hx Hq IH].
  - apply pq_get_repeat.
  - change ((x :: q) ++ repeat a (S n)) with (x :: (q ++ repeat a (S n))).
    cbn [pq_get]. rewrite IH.
    apply Z.leb_gt in Hx. now rewrite Hx.
Qed.

(** X10. After [_signal_complete], a worker leaves its loop at its next
    turn, whatever is still queued: the abort items have priority -10000
    and are served before every item of greater priority, so the work
    still on the queue is left there. *)
Theorem signalled_worker_exits (fuel : nat) (env : list Wait) (m : Manager)
  (bar : Barrier) (n : nat) :
  barrier m = Some bar ->
  threads m = S n ->
  Forall (fun item => (-10000 < priority item)%Z) (work m) ->
  _thread (S fuel) env (exec _signal_complete m)
  = Ok tt (set_work (work m ++ repeat abort_item n) (signalled m)).
Proof.
  intros Hb Ht Hq. unfold exec.
  rewrite (signal_complete_signalled m bar Hb). simpl final.
  cbn [_thread]. unfold bind at 1.
  assert (E : thread_turn env (signalled m)
              = Ok (false, env)
                  (set_work (work m ++ repeat abort_item n) (signalled m))).
  { unfold thread_turn. unfold bind at 1, get at 1.
    change (work (signalled m)) with (work m ++ repeat abort_item (threads m)).
    rewrite Ht, (pq_get_least_last abort_item n (work m) Hq).
    reflexivity. }
  rewrite E. reflexivity.
Qed.

Lemma signalled_worker_exits_witness :
  _thread 1 []
    (exec _signal_complete
       (exec (queue_target (DBytes (b "seed")) None) (started false)))
  = Ok tt
      (set_work
         (work (exec (queue_target (DBytes (b "seed")) None) (started false))
          ++ repeat abort_item 1)
         (signalled
            (exec (queue_target (DBytes (b "seed")) None) (started false)))).
Proof.
  apply (signalled_worker_exits 0 []
           (exec (queue_target (DBytes (b "seed")) None) (started false))
           {| parties := 3; resets := 1 |} 1).
  - vm_compute. reflexivity.
  - vm_compute. reflexivity.
  - vm_compute. repeat constructor.
Defined.

Lemma thread_turn_stale (env : list Wait) (m : Manager) (item : WorkItem)
  (rest : list WorkItem) :
  pq_get (work m) = Some (item, rest) -> stale m item ->
  thread_turn env m = Ok (true, env) (set_work rest m).
Proof.
  intros Hq (Ha & u & Hu & Hc).
  unfold thread_turn. unfold bind at 1, get at 1. rewrite Hq.
  unfold bind at 1, modify at 1.
  assert (Hc' : origin_completed u (set_work rest m) = true) by exact Hc.
  destruct (action item); [| |congruence]; rewrite Hu;
    unfold bind at 1, get at 1; rewrite Hc'; reflexivity.
Qed.

Lemma thread_turn_idle (env : list Wait) (m : Manager) (bar : Barrier) :
  work m = [] -> barrier m = Some bar ->
  thread_turn (Passed :: env) m = Ok (false, env) m.
Proof.
  intros Hw Hb. unfold thread_turn, bind, get. rewrite Hw. simpl.
  rewrite Hb. reflexivity.
Qed.

Lemma thread_drains_stale (env : list Wait) (bar : Barrier) (n : nat) :
  forall m fuel,
    length (work m) = n -> (n < fuel)%nat ->
    barrier m = Some bar -> Forall (stale m) (work m) ->
    _thread fuel (Passed :: env) m = Ok tt (set_work [] m).
Proof.
  induction n as [|n IH]; intros m fuel Hl Hf Hb Hs;
    (destruct fuel as [|fuel]; [lia|]); cbn [_thread]; unfold bind at 1.
  - apply length_zero_iff_nil in Hl.
    rewrite (thread_turn_idle env m bar Hl Hb). simpl.
    unfold ret. f_equal. destruct m; simpl in *. now subst.
  - destruct (pq_get (work m)) as [[item rest]|] eqn:Hq.
    + destruct (pq_get_split _ _ _ Hq) as (q1 & q2 & E & -> & _).
      assert (Hi : stale m item).
      { rewrite List.Forall_forall in Hs. apply Hs. rewrite E.
        apply in_or_app. right. now left. }
      rewrite (thread_turn_stale _ m item (q1 ++ q2) Hq Hi). simpl.
      rewrite (IH (set_work (q1 ++ q2) m) fuel).
      * reflexivity.
      * simpl. rewrite E in Hl. rewrite length_app in *. simpl in Hl. lia.
      * lia.
      * exact Hb.
      * simpl. rewrite E in Hs. apply Forall_app in Hs.
        destruct Hs as [H1 H2]. inversion H2; subst.
        apply Forall_app. split; assumption.
    + apply pq_get_none in Hq. rewrite Hq in Hl. discriminate Hl.
Qed.

(** X11. A queue that holds only items of units whose origin is completed
    is drained: the worker takes each item off the queue and passes over
    it without calling [enumerate], [next] or [evaluate], tells the monitor
    nothing, and leaves its loop at the barrier. *)
Theorem thread_discards_completed (fuel : nat) (env : list Wait)
  (m : Manager) (bar : Barrier) :
  barrier m = Some bar ->
  Forall (stale m) (work m) ->
  (length (work m) < fuel)%nat ->
  _thread fuel (Passed :: env) m = Ok tt (set_work [] m).
Proof.
  intros Hb Hs Hf.
  now apply (thread_drains_stale env bar (length (work m))).
Qed.

Lemma thread_discards_completed_witness :
  _thread 3 [Passed]
    (exec (register_flag (identity_unit false (root_target (DBytes (b "a"))))
             [70%N])
       (exec (queue_target (DBytes (b "b")) (Some (identity_unit false (root_target (DBytes (b "a"))))))
          (exec (queue_target (DBytes (b "a")) None) (started false))))
  = Ok tt
      (set_work []
         (exec (register_flag
                  (identity_unit false (root_target (DBytes (b "a"))))
                  [70%N])
            (exec (queue_target (DBytes (b "b")) (Some (identity_unit false (root_target (DBytes (b "a"))))))
               (exec (queue_target (DBytes (b "a")) None) (started false))))).
Proof.
  apply (thread_discards_completed 3 []
           (exec (register_flag
                    (identity_unit false (root_target (DBytes (b "a"))))
                    [70%N])
              (exec (queue_target (DBytes (b "b")) (Some (identity_unit false (root_target (DBytes (b "a"))))))
                 (exec (queue_target (DBytes (b "a")) None) (started false))))
           {| parties := 3; resets := 2 |}).
  - vm_compute. reflexivity.
  - vm_compute work. repeat constructor; try discriminate;
      eexists; (split; [reflexivity | vm_compute; reflexivity]).
  - vm_compute. lia.
Defined.

Lemma run_script_artifacts (u : Unit) (paths : list Data) :
  forall m,
    run_script u (artifacts paths) m
    = Ok tt (set_monitor (monitor m ++ map (on_artifact u) paths) m).
Proof.
  induction paths as [|p paths IH]; intros m; simpl.
  - unfold ret. rewrite app_nil_r. now destruct m.
  - unfold bind at 1. unfold register_artifact, emit.
    unfold bind, get, modify. rewrite andb_false_r. unfold ret.
    rewrite IH. simpl. now rewrite <- app_assoc.
Qed.

(** A turn of the worker on a queue that holds the item of [u] alone,
    when the generator yields: the item goes back on the queue with the
    generator one step on, and the case is evaluated. *)
Lemma thread_turn_case (env : list Wait) (u : Unit) (l : list GenStep)
  (k : nat) (item : WorkItem) (c : Case) (paths : list Data) (m : Manager) :
  item_of u (gen_at l k) item ->
  work m = [item] ->
  origin_completed u m = false ->
  nth k l StopIteration = Yield c ->
  evaluate u c = artifacts paths ->
  thread_turn env m
  = Ok (true, env)
      (set_monitor (monitor m ++ map (on_artifact u) paths)
         (set_work [evaluate_item u (gen_at l (S k))] m)).
Proof.
  intros Hi Hw Hc Hn He. unfold thread_turn. unfold bind at 1, get at 1.
  rewrite Hw. cbn [pq_get]. unfold bind at 1, modify at 1.
  assert (Hc' : origin_completed u (set_work [] m) = false) by exact Hc.
  destruct Hi as [[-> Hg] | ->]; cbn [action item_unit init_item evaluate_item];
    unfold bind at 1, get at 1; rewrite Hc'.
  - rewrite Hg. unfold bind at 1, ret at 1. unfold next, gen_at.
    cbn [gen_next gen_pos]. rewrite Hn. unfold requeue. cbn [item_unit priority init_item].
    unfold bind at 1. unfold bind at 1, get at 1. rewrite Hc'.
    unfold put, modify. unfold bind at 1, try_except. rewrite He.
    rewrite run_script_artifacts. reflexivity.
  - unfold bind at 1, ret at 1. cbn [generator evaluate_item]. unfold next, gen_at.
    cbn [gen_next gen_pos]. rewrite Hn. unfold requeue. cbn [item_unit priority init_item].
    unfold bind at 1. unfold bind at 1, get at 1. rewrite Hc'.
    unfold put, modify. unfold bind at 1, try_except. rewrite He.
    rewrite run_script_artifacts. reflexivity.
Qed.

(** The same turn when the generator is exhausted: the item is gone. *)
Lemma thread_turn_exhausted (env : list Wait) (u : Unit) (l : list GenStep)
  (k : nat) (item : WorkItem) (m : Manager) :
  item_of u (gen_at l k) item ->
  work m = [item] ->
  origin_completed u m = false ->
  nth k l StopIteration = StopIteration ->
  thread_turn env m = Ok (true, env) (set_work [] m).
Proof.
  intros Hi Hw Hc Hn. unfold thread_turn. unfold bind at 1, get at 1.
  rewrite Hw. cbn [pq_get]. unfold bind at 1, modify at 1.
  assert (Hc' : origin_completed u (set_work [] m) = false) by exact Hc.
  destruct Hi as [[-> Hg] | ->]; cbn [action item_unit init_item evaluate_item];
    unfold bind at 1, get at 1; rewrite Hc'.
  - rewrite Hg. unfold bind at 1, ret at 1. unfold next, gen_at.
    cbn [gen_next gen_pos]. rewrite Hn. reflexivity.
  - unfold bind at 1, ret at 1. cbn [generator evaluate_item]. unfold next, gen_at.
    cbn [gen_next gen_pos]. rewrite Hn. reflexivity.
Qed.

Lemma nth_yield_skipn (cases : list Case) :
  forall k,
    match skipn k cases with
    | [] => nth k (map Yield cases) StopIteration = StopIteration
    | c :: rest =>
      nth k (map Yield cases) StopIteration = Yield c
      /\ skipn (S k) cases = rest
    end.
Proof.
  induction cases as [|c cases IH]; intros [|k]; simpl; try reflexivity.
  - now split.
  - apply IH.
Qed.

(** The worker, alone on a queue that holds the item of [u] alone, goes
    through the cases that are left. *)
Lemma thread_runs_cases (env : list Wait) (bar : Barrier) (u : Unit)
  (cases : list Case) (paths : Case -> list Data) (rest : list Case) :
  forall k item m fuel,
    skipn k cases = rest ->
    (forall c, In c rest -> evaluate u c = artifacts (paths c)) ->
    item_of u (gen_at (map Yield cases) k) item ->
    work m = [item] ->
    barrier m = Some bar ->
    origin_completed u m = false ->
    (length rest + 2 <= fuel)%nat ->
    _thread fuel (Passed :: env) m
    = Ok tt
        (set_monitor
           (monitor m ++ flat_map (fun c => map (on_artifact u) (paths c)) rest)
           (set_work [] m)).
Proof.
  induction rest as [|c rest IH]; intros k item m fuel Hk He Hi Hw Hb Hc Hf;
    pose proof (nth_yield_skipn cases k) as Hn; rewrite Hk in Hn.
  - destruct fuel as [|[|fuel]]; [simpl in Hf; lia | simpl in Hf; lia |].
    cbn [_thread]. unfold bind at 1.
    rewrite (thread_turn_exhausted _ u _ k item m Hi Hw Hc Hn).
    cbn [fst snd]. unfold bind at 1.
    rewrite (thread_turn_idle env (set_work [] m) bar eq_refl Hb).
    simpl. rewrite app_nil_r. reflexivity.
  - destruct Hn as [Hn Hk'].
    destruct fuel as [|fuel]; [simpl in Hf; lia|].
    cbn [_thread]. unfold bind at 1.
    rewrite (thread_turn_case _ u _ k item c (paths c) m Hi Hw Hc Hn
               (He c (or_introl eq_refl))).
    cbn [fst snd].
    rewrite (IH (S k) (evaluate_item u (gen_at (map Yield cases) (S k)))).
    + simpl. rewrite <- app_assoc. reflexivity.
    + exact Hk'.
    + intros c' Hc'. apply He. now right.
    + now right.
    + reflexivity.
    + exact Hb.
    + exact Hc.
    + simpl in Hf. lia.
Qed.

(** X12. A worker that is alone on the queue evaluates every case of a
    unit exactly once, in the order of the unit's generator: after each
    [next] the item goes back on the queue, the case is evaluated, and
    when the generator is exhausted the item is dropped and the worker
    leaves at the barrier. Here for a unit whose [evaluate] registers
    artifacts without recursion: the monitor receives the artifacts of
    the first case, then those of the second, and so on. *)
Theorem thread_evaluates_each_case_once (fuel : nat) (env : list Wait)
  (bar : Barrier) (u : Unit) (cases : list Case)
  (paths : Case -> list Data) (m : Manager) :
  enumerate u = EnumGen (gen_of_list (map Yield cases)) ->
  (forall c, In c cases -> evaluate u c = artifacts (paths c)) ->
  work m = [init_item u] ->
  barrier m = Some bar ->
  origin_completed u m = false ->
  (length cases + 2 <= fuel)%nat ->
  _thread fuel (Passed :: env) m
  = Ok tt
      (set_monitor
         (monitor m
          ++ flat_map (fun c => map (on_artifact u) (paths c)) cases)
         (set_work [] m)).
Proof.
  intros Hg He Hw Hb Hc Hf.
  apply (thread_runs_cases env bar u cases paths cases 0 (init_item u));
    try assumption; [reflexivity | left; now split].
Qed.

Lemma thread_evaluates_each_case_once_witness :
  monitor
    (exec (_thread 5 [Passed])
       (set_work
          [init_item
             {| PRIORITY := 50; STRICT_FLAGS := false; target := 0;
                origin := 0; depth := 0;
                enumerate :=
                  EnumGen
                    (gen_of_list
                       (map Yield
                          [DBytes (b "one"); DBytes (b "two");
                           DBytes (b "three")]));
                evaluate := fun c => artifacts [c; c] |}]
          (started false)))
  = map
      (on_artifact
         {| PRIORITY := 50; STRICT_FLAGS := false; target := 0;
            origin := 0; depth := 0;
            enumerate :=
              EnumGen
                (gen_of_list
                   (map Yield
                      [DBytes (b "one"); DBytes (b "two");
                       DBytes (b "three")]));
            evaluate := fun c => artifacts [c; c] |})
      [DBytes (b "one"); DBytes (b "one"); DBytes (b "two");
       DBytes (b "two"); DBytes (b "three"); DBytes (b "three")].
Proof.
  unfold exec.
  rewrite (thread_evaluates_each_case_once 5 [] {| parties := 3; resets := 0 |}
             {| PRIORITY := 50; STRICT_FLAGS := false; target := 0;
                origin := 0; depth := 0;
                enumerate :=
                  EnumGen
                    (gen_of_list
                       (map Yield
                          [DBytes (b "one"); DBytes (b "two");
                           DBytes (b "three")]));
                evaluate := fun c => artifacts [c; c] |}
             [DBytes (b "one"); DBytes (b "two"); DBytes (b "three")]
             (fun c => [c; c])).
  - vm_compute. reflexivity.
  - reflexivity.
  - intros c _. reflexivity.
  - reflexivity.
  - vm_compute. reflexivity.
  - vm_compute. reflexivity.
  - simpl. lia.
Defined.

(* ===================================================================== *)
(** ** Invariants of every run *)
(* ===================================================================== *)

Lemma bounded_same (m m' : Manager) :
  cfg_max_depth m' = cfg_max_depth m -> targets m' = targets m ->
  bounded m m'.
Proof.
  intros Hd Ht. split; [exact Hd|]. exists []. rewrite app_nil_r.
  split; [exact Ht | constructor].
Qed.

Lemma bounded_refl (m : Manager) : bounded m m.
Proof. now apply bounded_same. Qed.

Lemma bounded_trans (m1 m2 m3 : Manager) :
  bounded m1 m2 -> bounded m2 m3 -> bounded m1 m3.
Proof.
  intros [D1 (t1 & T1 & F1)] [D2 (t2 & T2 & F2)]. split; [congruence|].
  exists (t1 ++ t2). split; [now rewrite T2, T1, app_assoc|].
  apply Forall_app. split; [exact F1 | now rewrite <- D1].
Qed.

Lemma noted_same (m m' : Manager) :
  monitor m' = monitor m -> completed m' = completed m -> noted m m'.
Proof.
  intros Hm Hc. exists []. split; [now rewrite app_nil_r|].
  intros o. rewrite Hc. split; [now left|].
  intros [H | (u & flag & [] & _)]. exact H.
Qed.

Lemma noted_refl (m : Manager) : noted m m.
Proof. now apply noted_same. Qed.

Lemma noted_trans (m1 m2 m3 : Manager) :
  noted m1 m2 -> noted m2 m3 -> noted m1 m3.
Proof.
  intros (e1 & M1 & C1) (e2 & M2 & C2). exists (e1 ++ e2).
  split; [now rewrite M2, M1, app_assoc|].
  intros o. rewrite C2, C1. split.
  - intros [[H | (u & flag & Hi & Ho)] | (u & flag & Hi & Ho)].
    + now left.
    + right. exists u, flag. split; [apply in_or_app; now left | exact Ho].
    + right. exists u, flag. split; [apply in_or_app; now right | exact Ho].
  - intros [H | (u & flag & Hi & Ho)]; [now left; left|].
    apply in_app_or in Hi. destruct Hi as [Hi | Hi].
    + left. right. now exists u, flag.
    + right. now exists u, flag.
Qed.

(** An event other than [on_flag] completes nothing. *)
Lemma noted_add_event (ev : Event) (m : Manager) :
  (forall u flag, ev <> on_flag u flag) ->
  noted m (set_monitor (monitor m ++ [ev]) m).
Proof.
  intros Hev. exists [ev]. split; [reflexivity|]. intros o. simpl.
  split; [now left|]. intros [H | (u & flag & [E | []] & _)]; [exact H|].
  now destruct (Hev u flag).
Qed.

Lemma noted_register_flag (u : Unit) (flag : text) :
  preserves noted (register_flag u flag).
Proof.
  intros m. exists [on_flag u flag]. split; [reflexivity|]. intros o.
  simpl. rewrite elem_of_union, elem_of_singleton. split.
  - intros [-> | H]; [right | now left]. exists u, flag. split; [now left|].
    reflexivity.
  - intros [H | (u' & flag' & [E | []] & Ho)]; [now right|].
    injection E as <- _. now left.
Qed.

Lemma bounded_queue_target (upstream : Data) (parent : option Unit) :
  preserves bounded (queue_target upstream parent).
Proof.
  intros m. split; [apply config_queue_target|].
  destruct (queue_target_builds upstream parent m) as (m' & E & T & _).
  assert (Hd : forall ev,
             exists ts,
               targets (set_monitor (monitor m ++ [ev]) m) = targets m ++ ts
               /\ Forall (within_depth (cfg_max_depth m)) ts).
  { intros ev. exists []. now rewrite app_nil_r. }
  assert (Hr : exists ts, targets m = targets m ++ ts
                          /\ Forall (within_depth (cfg_max_depth m)) ts).
  { exists []. now rewrite app_nil_r. }
  destruct parent as [p|].
  - rewrite queue_target_parent.
    destruct (is_payload upstream); [|exact Hr]. cbn [negb].
    destruct (eq_empty_str (trimmed upstream)); [exact Hr|].
    destruct (origin_completed p m); [exact Hr|].
    destruct (depth p + 1 >=? cfg_max_depth m)%Z eqn:Hg; [apply Hd|].
    rewrite E. simpl. exists [target_for upstream (Some p) m].
    split; [exact T|]. constructor; [|constructor].
    unfold within_depth. simpl. split; [reflexivity|].
    rewrite Z.geb_leb in Hg. apply Z.leb_gt in Hg. exact Hg.
  - rewrite queue_target_root.
    destruct (is_payload upstream); [|exact Hr]. cbn [negb].
    destruct (eq_empty_str (trimmed upstream)); [exact Hr|].
    rewrite E. simpl. exists [target_for upstream None m].
    split; [exact T|]. constructor; [|constructor]. reflexivity.
Qed.

Section Invariant.

(** An invariant that [register_flag] and [queue_target] keep is kept
    by every method of the manager. *)
Variable R : Manager -> Manager -> Prop.
Hypothesis R_refl : forall m, R m m.
Hypothesis R_trans : forall m1 m2 m3, R m1 m2 -> R m2 m3 -> R m1 m3.
Hypothesis R_set_work : forall q m, R m (set_work q m).
Hypothesis R_set_barrier : forall x m, R m (set_barrier x m).
Hypothesis R_set_outdir_exists : forall o m, R m (set_outdir_exists o m).
Hypothesis R_set_flag_pattern : forall x m, R m (set_flag_pattern x m).
Hypothesis R_set_threads : forall n m, R m (set_threads n m).
Hypothesis R_set_targets : forall l m, R m (set_targets l m).
Hypothesis R_emit :
  forall ev m,
    (forall u flag, ev <> on_flag u flag) ->
    R m (set_monitor (monitor m ++ [ev]) m).
Hypothesis R_register_flag : forall u flag, preserves R (register_flag u flag).
Hypothesis R_queue_target :
  forall upstream parent, preserves R (queue_target upstream parent).

Ltac keep_R :=
  repeat first
    [ match goal with
      | |- preserves R (bind _ _) =>
          apply (preserves_bind R R_trans); [| intros ?]
      | |- preserves R (try_except _ _) =>
          apply (preserves_try_except R R_trans); [| intros ?]
      | |- preserves R (for_each _ _) =>
          apply (preserves_for_each R R_refl R_trans); intros ? ?
      | |- preserves R (ret _) => apply (preserves_ret R R_refl)
      | |- preserves R (raise _) => apply (preserves_raise R R_refl)
      | |- preserves R (get _) => apply (preserves_get R R_refl)
      | |- preserves R (fun m => Unfinished m) =>
          apply (preserves_unfinished R R_refl)
      | |- preserves R (register_flag _ _) => apply R_register_flag
      | |- preserves R (queue_target _ _) => apply R_queue_target
      | |- preserves R (modify _) => apply preserves_modify; intros ?
      | |- preserves R (emit _) => apply preserves_modify; intros ?
      | |- preserves R (put _) => apply preserves_modify; intros ?
      | |- preserves R (as_bytes _) => unfold as_bytes
      | |- preserves R (decode _) => unfold decode
      | |- preserves R (search _) => unfold search
      | |- preserves R barrier_reset => unfold barrier_reset
      | |- preserves R (queue _) => unfold queue
      | |- preserves R (requeue _) => unfold requeue
      | |- preserves R _signal_complete => unfold _signal_complete
      | |- preserves R (let _ := _ in _) => cbv zeta
      | |- preserves R (match ?x with _ => _ end) => destruct x
      | |- R _ (set_monitor (monitor _ ++ [_]) _) =>
          apply R_emit; discriminate
      | |- R _ _ => first [ apply R_set_work | apply R_set_barrier
                          | apply R_set_outdir_exists
                          | apply R_set_flag_pattern | apply R_set_threads
                          | apply R_set_targets | apply R_refl ]
      | |- preserves R _ => assumption
      | |- preserves R _ => solve [auto]
      end ].

(** [queue_target] itself keeps an invariant that a new target does not
    break. *)
Lemma kept_queue_target_base (upstream : Data) (parent : option Unit) :
  preserves R (queue_target upstream parent).
Proof using R_refl R_trans R_set_work R_set_barrier R_set_targets R_emit.
  unfold queue_target, py_strip, new_target. keep_R.
Qed.

Lemma kept_find_flag_rec (fuel : nat) :
  forall u data, preserves R (find_flag_rec fuel u data).
Proof using R_refl R_trans R_register_flag.
  induction fuel as [|fuel IH]; intros u data; simpl; [keep_R|].
  destruct data; keep_R.
Qed.

Lemma kept_find_flag (u : Unit) (data : Data) :
  preserves R (find_flag u data).
Proof using R_refl R_trans R_register_flag. apply kept_find_flag_rec. Qed.

Lemma kept_register_data (u : Unit) (data : Data) (recurse : bool) :
  preserves R (register_data u data recurse).
Proof using R_refl R_trans R_register_flag R_queue_target R_emit.
  unfold register_data. pose proof (kept_find_flag u data). keep_R.
Qed.

Lemma kept_register_artifact (u : Unit) (path : Data) (recurse : bool) :
  preserves R (register_artifact u path recurse).
Proof using R_refl R_trans R_queue_target R_emit.
  unfold register_artifact. keep_R.
Qed.

Lemma kept_queue (u : Unit) : preserves R (queue u).
Proof using R_refl R_trans R_set_work R_set_barrier. keep_R. Qed.

Lemma kept_requeue (item : WorkItem) : preserves R (requeue item).
Proof using R_refl R_trans R_set_work. keep_R. Qed.

Lemma kept_signal_complete : preserves R _signal_complete.
Proof using R_refl R_trans R_set_work R_set_barrier. keep_R. Qed.

Lemma kept_start : preserves R start.
Proof using R_refl R_trans R_set_barrier R_set_outdir_exists
  R_set_flag_pattern R_set_threads.
  unfold start. keep_R.
Qed.

Lemma kept_join_loop (stop_time : option Z) (env : list (Wait * Z)) :
  forall aborting, preserves R (join_loop stop_time aborting env).
Proof using R_refl R_trans R_set_work R_set_barrier.
  pose proof kept_signal_complete.
  induction env as [|[w now] env IH]; intros aborting; simpl; keep_R.
Qed.

Lemma kept_join (timeout : option Z) (join_time : Z)
  (env : list (Wait * Z)) :
  preserves R (join timeout join_time env).
Proof using R_refl R_trans R_set_work R_set_barrier R_emit.
  unfold join. pose proof kept_join_loop. keep_R.
Qed.

Lemma kept_run_script (u : Unit) (script : list Stmt) :
  preserves R (run_script u script).
Proof using R_refl R_trans R_register_flag R_queue_target R_emit.
  pose proof kept_register_data. pose proof kept_register_artifact.
  induction script as [|s script IH]; simpl; keep_R.
Qed.

Lemma kept_thread_turn (env : list Wait) : preserves R (thread_turn env).
Proof using R_refl R_trans R_set_work R_register_flag R_queue_target R_emit.
  pose proof kept_run_script. pose proof kept_requeue.
  unfold thread_turn, next. keep_R.
Qed.

Lemma kept_thread (fuel : nat) :
  forall env, preserves R (_thread fuel env).
Proof using R_refl R_trans R_set_work R_register_flag R_queue_target R_emit.
  pose proof kept_thread_turn.
  induction fuel as [|fuel IH]; intros env; simpl; keep_R.
Qed.

Lemma kept_run_call (c : Call) (m : Manager) : R m (run_call c m).
Proof using R_refl R_trans R_set_work R_set_barrier R_set_outdir_exists
  R_set_flag_pattern R_set_threads R_emit R_register_flag R_queue_target.
  destruct c; simpl; unfold exec.
  - apply kept_register_data.
  - apply kept_register_artifact.
  - apply R_register_flag.
  - apply kept_find_flag.
  - apply R_queue_target.
  - apply kept_queue.
  - apply kept_requeue.
  - apply kept_start.
  - apply kept_join.
  - apply kept_signal_complete.
  - apply kept_thread.
Qed.

Lemma kept_run_calls (cs : list Call) : forall m, R m (run_calls cs m).
Proof using R_refl R_trans R_set_work R_set_barrier R_set_outdir_exists
  R_set_flag_pattern R_set_threads R_emit R_register_flag R_queue_target.
  induction cs as [|c cs IH]; intros m; simpl; [apply R_refl|].
  eapply R_trans; [apply kept_run_call | apply IH].
Qed.

End Invariant.

(** X13. Over any run of the manager, the depth limit is never changed
    and every target built is within it: a target without a parent is at
    depth 0, and a target with a parent unit is one level below it, with
    [parent.depth + 1 < max-depth]. *)
Theorem targets_stay_within_depth (cs : list Call) (m : Manager) :
  cfg_max_depth (run_calls cs m) = cfg_max_depth m
  /\ exists ts,
       targets (run_calls cs m) = targets m ++ ts
       /\ Forall (within_depth (cfg_max_depth m)) ts.
Proof.
  assert (H : bounded m (run_calls cs m)).
  { apply (kept_run_calls bounded bounded_refl bounded_trans);
      try (intros; apply bounded_same; reflexivity).
    - intros u flag m0. apply bounded_same; reflexivity.
    - apply bounded_queue_target. }
  destruct H as [Hd Ht]. now split.
Qed.

(** X14. Over any run of the manager, an origin becomes completed
    exactly when the monitor is told a flag of one of its units: the
    origins completed at the end are those completed at the start and
    those of the units in the [on_flag] calls made since. Nothing else
    sets [completed], and nothing clears it. *)
Theorem completed_iff_flag_reported (cs : list Call) (m : Manager) :
  exists evs,
    monitor (run_calls cs m) = monitor m ++ evs
    /\ forall o,
         o ∈ completed (run_calls cs m)
         <-> o ∈ completed m
             \/ exists u flag, In (on_flag u flag) evs /\ origin u = o.
Proof.
  assert (Hq : forall upstream parent,
             preserves noted (queue_target upstream parent)).
  { intros upstream parent.
    apply (kept_queue_target_base noted noted_refl noted_trans);
      try (intros; apply noted_same; reflexivity).
    apply noted_add_event. }
  apply (kept_run_calls noted noted_refl noted_trans);
    try (intros; apply noted_same; reflexivity).
  - apply noted_add_event.
  - apply noted_register_flag.
  - exact Hq.
Qed.

(* ===================================================================== *)
(** ** What can end a worker *)
(* ===================================================================== *)

Lemma queues_more_same (m m' : Manager) :
  finder_match m' = finder_match m -> barrier m' = barrier m ->
  work m' = work m -> queues_more m m'.
Proof.
  intros Hf Hb Hw. split; [exact Hf|]. split; [now rewrite Hb|].
  exists []. simpl. rewrite app_nil_r. now split.
Qed.

Lemma queues_more_refl (m : Manager) : queues_more m m.
Proof. now apply queues_more_same. Qed.

Lemma queues_more_trans (m1 m2 m3 : Manager) :
  queues_more m1 m2 -> queues_more m2 m3 -> queues_more m1 m3.
Proof.
  intros (F1 & B1 & u1 & W1 & A1) (F2 & B2 & u2 & W2 & A2).
  split; [congruence|]. split; [tauto|]. exists (u1 ++ u2). split.
  - now rewrite W2, W1, map_app, app_assoc.
  - apply Forall_app. split; [exact A1 | now rewrite <- F1].
Qed.

Lemma queues_more_enqueued (units : list Unit) (m : Manager) :
  (forall u, In u units -> exists t, In u (finder_match m t)) ->
  queues_more m (enqueued units m).
Proof.
  intros Hu. split; [reflexivity|]. split.
  - simpl. destruct (barrier m); [discriminate | congruence].
  - exists (queued_units units m). split; [reflexivity|].
    apply List.Forall_forall. intros u Hi. apply Hu.
    unfold queued_units in Hi. apply List.filter_In in Hi. tauto.
Qed.

Lemma queues_more_queue_target (upstream : Data) (parent : option Unit) :
  preserves queues_more (queue_target upstream parent).
Proof.
  intros m.
  assert (Hb : queues_more m
                 (final
                    ((t <- new_target upstream parent ;;
                      units <- get (fun m => finder_match m t) ;;
                      for_each units queue ;;; ret (Some t)) m))).
  { rewrite queue_target_builds_enqueued. simpl final.
    apply (queues_more_trans _
             (set_targets (targets m ++ [target_for upstream parent m]) m)).
    - now apply queues_more_same.
    - apply queues_more_enqueued. intros u Hi.
      now exists (target_for upstream parent m). }
  destruct parent as [p|].
  - rewrite queue_target_parent.
    destruct (is_payload upstream); [|apply queues_more_refl]. cbn [negb].
    destruct (eq_empty_str (trimmed upstream)); [apply queues_more_refl|].
    destruct (origin_completed p m); [apply queues_more_refl|].
    destruct (depth p + 1 >=? cfg_max_depth m)%Z; [|exact Hb].
    now apply queues_more_same.
  - rewrite queue_target_root.
    destruct (is_payload upstream); [|apply queues_more_refl]. cbn [negb].
    destruct (eq_empty_str (trimmed upstream)); [apply queues_more_refl|].
    exact Hb.
Qed.

(** What a unit's [evaluate] does to the queue: it adds init items of
    units the finder matches. *)
Lemma queues_more_run_script (u : Unit) (script : list Stmt) :
  preserves queues_more (run_script u script).
Proof.
  apply (kept_run_script queues_more queues_more_refl queues_more_trans).
  - intros ev m _. now apply queues_more_same.
  - intros u' flag m. now apply queues_more_same.
  - apply queues_more_queue_target.
Qed.

Lemma sound_queues_more (m m' : Manager) :
  sound m -> queues_more m m' -> sound m'.
Proof.
  intros (Hb & Hw & Hf) (F & B & us & W & A).
  split; [tauto|]. split.
  - rewrite W. apply Forall_app. split; [exact Hw|].
    apply List.Forall_forall. intros item Hi. apply in_map_iff in Hi.
    destruct Hi as (u' & <- & Hu). rewrite List.Forall_forall in A.
    destruct (A u' Hu) as (t & Ht). exact (Hf t u' Ht).
  - rewrite F. exact Hf.
Qed.

Lemma sound_set_work (q : list WorkItem) (m : Manager) :
  sound m -> Forall good_item q -> sound (set_work q m).
Proof. intros (Hb & _ & Hf) Hq. now split. Qed.

Lemma good_gen_next (g : Gen) :
  good_gen g ->
  good_gen {| gen_next := gen_next g; gen_pos := S (gen_pos g) |}.
Proof. intros H. exact H. Qed.

(** The end of a turn, from [next] on. *)
Lemma turn_body_sound (env : list Wait) (u : Unit) (g : Gen) (prio : Z)
  (act : Action) (m : Manager) :
  sound m -> good_gen g ->
  match
    (match next g with
     | (StopIteration, _) => ret (true, env)
     | (GenRaise e, _) => raise e
     | (Yield case, g') =>
       requeue {| priority := prio; action := act; item_unit := Some u;
                  generator := Some g' |} ;;;
       try_except (run_script u (evaluate u case))
         (fun e =>
            if is_Exception e then emit (on_exception u e) else raise e) ;;;
       ret (true, env)
     end) m
  with
  | Ok _ m' => sound m'
  | Raised e _ => e = KeyboardInterruptExn
  | Unfinished _ => True
  end.
Proof.
  intros Hs Hg. unfold next.
  destruct (gen_next g (gen_pos g)) as [c| |e] eqn:En.
  - assert (Hr : exists m2,
               requeue {| priority := prio; action := act;
                          item_unit := Some u;
                          generator :=
                            Some {| gen_next := gen_next g;
                                    gen_pos := S (gen_pos g) |} |} m
               = Ok tt m2 /\ sound m2).
    { unfold requeue. cbn [item_unit]. unfold bind, get, put, modify.
      destruct (origin_completed u m); [now exists m|].
      eexists. split; [reflexivity|].
      destruct Hs as (Hb & Hw & Hf). split; [exact Hb|]. split; [|exact Hf].
      apply Forall_app. split; [exact Hw|]. constructor; [|constructor].
      unfold good_item. simpl. eexists. split; [reflexivity | exact Hg]. }
    destruct Hr as (m2 & Er & Hs2). unfold bind at 1. rewrite Er.
    unfold bind at 1, try_except.
    pose proof (queues_more_run_script u (evaluate u c) m2) as Hq.
    destruct (run_script u (evaluate u c) m2) as [a m3|e m3|m3];
      simpl in Hq; pose proof (sound_queues_more _ _ Hs2 Hq) as Hs3.
    + exact Hs3.
    + destruct e; simpl; try exact Hs3. reflexivity.
    + exact I.
  - exact Hs.
  - now destruct (Hg (gen_pos g) e).
Qed.

(** A turn of the worker on a sound manager leaves it sound, and the only
    exception that comes out of it is the interrupt. *)
Lemma thread_turn_sound (env : list Wait) (m : Manager) :
  sound m ->
  match thread_turn env m with
  | Ok _ m' => sound m'
  | Raised e _ => e = KeyboardInterruptExn
  | Unfinished _ => True
  end.
Proof.
  intros Hs. unfold thread_turn. unfold bind at 1, get at 1.
  destruct (pq_get (work m)) as [[item rest]|] eqn:Hq.
  - destruct (pq_get_split _ _ _ Hq) as (q1 & q2 & E & -> & _).
    destruct Hs as (Hb & Hw & Hf). rewrite E in Hw.
    apply Forall_app in Hw. destruct Hw as [H1 H2].
    inversion H2 as [|? ? Hi H3]; subst.
    assert (Hs1 : sound (set_work (q1 ++ q2) m)).
    { split; [exact Hb|]. split; [|exact Hf]. apply Forall_app. now split. }
    unfold bind at 1, modify at 1. unfold good_item in Hi.
    destruct (action item); [| |exact Hs1];
      (destruct (item_unit item) as [u|]; [|contradiction]);
      unfold bind at 1, get at 1;
      (destruct (origin_completed u (set_work (q1 ++ q2) m));
       [exact Hs1|]).
    + destruct Hi as (g & -> & Hg). unfold bind at 1, ret at 1.
      now apply turn_body_sound.
    + destruct Hi as (g & -> & Hg). unfold bind at 1, ret at 1.
      now apply turn_body_sound.
  - unfold bind, get. destruct Hs as (Hb & Hw & Hf).
    destruct (barrier m) as [bar|] eqn:Eb; [|contradiction].
    destruct env as [|[| |] env]; simpl; try exact I;
      try (split; [now rewrite Eb | now split]). reflexivity.
Qed.

(** X15. What can end a worker. On a started manager whose units
    enumerate without raising and whose generators never raise, no
    exception leaves [_thread] but the interrupt: whatever [evaluate]
    raises ([Exception]s of the unit, and those of the manager's own
    [register_data] and [register_artifact]) is caught and told to the
    monitor, and the items on the queue always carry the unit and the
    generator the loop needs. *)
Theorem thread_ends_only_by_interrupt (fuel : nat) (env : list Wait)
  (m m' : Manager) (e : Exn) :
  sound m ->
  _thread fuel env m = Raised e m' ->
  e = KeyboardInterruptExn.
Proof.
  revert env m. induction fuel as [|fuel IH]; intros env m Hs H;
    [discriminate H|].
  cbn [_thread] in H. unfold bind in H.
  pose proof (thread_turn_sound env m Hs) as Ht.
  destruct (thread_turn env m) as [[again env'] m1|e1 m1|m1];
    [|injection H as <- _; exact Ht | discriminate H].
  cbn [fst snd] in H. destruct again; [|discriminate H].
  exact (IH env' m1 Ht H).
Qed.

Lemma thread_ends_only_by_interrupt_witness :
  match
    _thread 5 [KeyboardInterrupt]
      (exec (queue_target (DBytes (b "seed")) None)
         (exec start (new_manager flag_braces (fun t => [raising_unit t]))))
  with
  | Raised e _ => e = KeyboardInterruptExn
  | _ => False
  end.
Proof.
  assert (Hg : forall t, good_unit (raising_unit t)).
  { intros t. eexists. split; [reflexivity|].
    intros [|[|k]] e; discriminate. }
  assert (Hs : sound
                 (exec (queue_target (DBytes (b "seed")) None)
                    (exec start
                       (new_manager flag_braces (fun t => [raising_unit t]))))).
  { split; [vm_compute; discriminate|]. split.
    - vm_compute work. constructor; [|constructor].
      apply (Hg {| tid := 0; upstream := DBytes (b "seed"); parent := None;
                   tdepth := 0; torigin := 0 |}).
    - intros t u [<- | []]. apply Hg. }
  assert (E : _thread 5 [KeyboardInterrupt]
                (exec (queue_target (DBytes (b "seed")) None)
                   (exec start
                      (new_manager flag_braces (fun t => [raising_unit t]))))
              = Raised KeyboardInterruptExn
                  (exec (_thread 5 [KeyboardInterrupt])
                     (exec (queue_target (DBytes (b "seed")) None)
                        (exec start
                           (new_manager flag_braces
                              (fun t => [raising_unit t]))))))
    by (vm_compute; reflexivity).
  rewrite E.
  exact (thread_ends_only_by_interrupt 5 [KeyboardInterrupt] _ _ _ Hs E).
Defined.
